(** * GtkShadow (gtk/gtkshadow.c): shadow lists, resolution, printing, painting

    A shallow embedding of gtk/gtkshadow.c.  The C heap is an explicit
    store of [GtkShadow] and [GtkShadowElement] slices indexed by address;
    calls into other libraries (symbolic colors, GLib warnings, cairo) are
    recorded as events, so that statements about "which calls happen, in
    which order" are statements about lists. *)

From Stdlib Require Import ZArith QArith String DecimalString DecimalZ Lia.
From stdpp Require Import gmap strings list fin_maps.

Local Open Scope Z_scope.

(** ** Machine numbers *)

(** A finite [gdouble] is a rational number.  NaN and the infinities, whose
    conversion to an integer type is undefined in C, are not represented. *)
Definition gdouble := Q.

(** Two's complement wrap-around at the widths used by the file. *)
Definition gint16_wrap (z : Z) : Z := (z + 32768) mod 65536 - 32768.
Definition guint_wrap (z : Z) : Z := z mod 4294967296.
Definition gint_wrap (z : Z) : Z := (z + 2147483648) mod 4294967296 - 2147483648.

Definition gint16_range (z : Z) : Prop := -32768 <= z <= 32767.

(** Conversion of a floating value to an integer type discards the
    fractional part (truncation toward zero). *)
Definition gdouble_trunc (d : gdouble) : Z := Z.quot (Qnum d) (Z.pos (Qden d)).

(** The assignment [gint16 field = gdouble value].  C defines it when the
    truncated value is representable, and then it is that value.  Outside
    that range C leaves the result undefined: the call goes on, with some
    [gint16] in the field.  The low 16 bits written here only stand for
    that value; every statement about a stored number is made under the
    condition that its integer part is a [gint16], and says nothing
    otherwise. *)
Definition gint16_of_gdouble (d : gdouble) : Z := gint16_wrap (gdouble_trunc d).

(** The promotion of an integer to [gdouble] is exact. *)
Definition gdouble_of_gint (z : Z) : gdouble := inject_Z z.

(** [printf ("%d", z)] *)
Definition printf_d (z : Z) : string := NilZero.string_of_int (Z.to_int z).

(** [s] is the decimal numeral of [z]: it reads as a signed decimal number
    of value [z] that has no leading zero and no sign on zero. *)
Definition decimal_numeral (z : Z) (s : string) : Prop :=
  exists d, NilZero.int_of_string s = Some d /\ Z.of_int d = z /\
            Decimal.norm d = d.

(** ** Data *)

Definition addr := positive.

(** A C pointer: [None] is NULL. *)
Definition ptr := option addr.

Record GdkRGBA := { red : gdouble; green : gdouble; blue : gdouble; alpha : gdouble }.

(** What [g_slice_new0] leaves in a color field. *)
Definition rgba_zero : GdkRGBA := {| red := 0%Q; green := 0%Q; blue := 0%Q; alpha := 0%Q |}.

Record GtkShadowElement := {
  hoffset : Z;      (* gint16 *)
  voffset : Z;      (* gint16 *)
  radius : Z;       (* gint16 *)
  spread : Z;       (* gint16 *)
  inset : bool;     (* gboolean *)
  color : GdkRGBA;
  symbolic_color : ptr
}.

Record GtkShadow := {
  elements : list addr;   (* GList of GtkShadowElement pointers *)
  ref_count : Z;          (* guint *)
  resolved : bool         (* gboolean *)
}.

(** Calls that leave this file and act on objects it does not own.  The
    last one is what [g_return_if_fail] does when its check fails, with the
    checks compiled in as GLib has them by default: it logs a warning that
    names the function and the failed expression, and the function
    returns. *)
Inductive event :=
| gtk_symbolic_color_ref_call (c : addr)
| gtk_symbolic_color_unref_call (c : addr)
| gtk_symbolic_color_resolve_call (c : ptr) (props : ptr)
| g_return_if_fail_warning (func expr : string).

Record memory := {
  shadows : gmap addr GtkShadow;
  slices : gmap addr GtkShadowElement;
  trace : list event
}.

Definition empty_memory : memory := {| shadows := ∅; slices := ∅; trace := [] |}.

(** ** The cairo context, as far as this file looks at it *)

Inductive cairo_call :=
| cairo_move_to_call (x y : gdouble)
| cairo_save_call
| cairo_rel_move_to_call (dx dy : gdouble)
| gdk_cairo_set_source_rgba_call (rgba : GdkRGBA)
| gtk_pango_fill_layout_call (layout : ptr)
| cairo_restore_call.

Record cairo_t := {
  cairo_has_current_point : bool;
  cairo_calls : list cairo_call
}.

Definition cairo_log (cr : cairo_t) (c : cairo_call) : cairo_t :=
  {| cairo_has_current_point := cairo_has_current_point cr;
     cairo_calls := cairo_calls cr ++ [c] |}.

Definition cairo_move_to (cr : cairo_t) (x y : gdouble) : cairo_t :=
  {| cairo_has_current_point := true;
     cairo_calls := cairo_calls cr ++ [cairo_move_to_call x y] |}.
Definition cairo_save (cr : cairo_t) := cairo_log cr cairo_save_call.
Definition cairo_rel_move_to (cr : cairo_t) (dx dy : gdouble) :=
  cairo_log cr (cairo_rel_move_to_call dx dy).
Definition gdk_cairo_set_source_rgba (cr : cairo_t) (rgba : GdkRGBA) :=
  cairo_log cr (gdk_cairo_set_source_rgba_call rgba).
Definition _gtk_pango_fill_layout (cr : cairo_t) (layout : ptr) :=
  cairo_log cr (gtk_pango_fill_layout_call layout).
Definition cairo_restore (cr : cairo_t) := cairo_log cr cairo_restore_call.

(** ** Computations on the store

    A computation takes the store and either yields a value and the new
    store, or gets stuck ([None]) where C has no defined behaviour: a load,
    store or free through NULL or through a dangling pointer. *)

Definition M (A : Type) : Type := memory -> option (A * memory).

Definition ret {A} (a : A) : M A := fun m => Some (a, m).
Definition bind {A B} (c : M A) (k : A -> M B) : M B :=
  fun m => match c m with Some (a, m') => k a m' | None => None end.
Definition stuck {A} : M A := fun _ => None.

Notation "'let*' x ':=' c 'in' k" := (bind c (fun x => k))
  (at level 10, x binder, c at level 100, k at level 200).

Definition emit (e : event) : M unit :=
  fun m => Some (tt, {| shadows := shadows m; slices := slices m;
                        trace := trace m ++ [e] |}).

Definition load_shadow (a : addr) : M GtkShadow :=
  fun m => match shadows m !! a with Some s => Some (s, m) | None => None end.

Definition store_shadow (a : addr) (s : GtkShadow) : M unit :=
  fun m => match shadows m !! a with
           | Some _ => Some (tt, {| shadows := <[a := s]> (shadows m);
                                    slices := slices m; trace := trace m |})
           | None => None
           end.

(** [g_slice_new0 (GtkShadow)]: a fresh, zero-filled slice. *)
Definition g_slice_new0_shadow : M addr :=
  fun m => let a := fresh (dom (shadows m)) in
           Some (a, {| shadows := <[a := {| elements := []; ref_count := 0;
                                            resolved := false |}]> (shadows m);
                       slices := slices m; trace := trace m |}).

Definition g_slice_free_shadow (a : addr) : M unit :=
  fun m => match shadows m !! a with
           | Some _ => Some (tt, {| shadows := delete a (shadows m);
                                    slices := slices m; trace := trace m |})
           | None => None
           end.

Definition load_element (a : addr) : M GtkShadowElement :=
  fun m => match slices m !! a with Some e => Some (e, m) | None => None end.

Definition store_element (a : addr) (e : GtkShadowElement) : M unit :=
  fun m => match slices m !! a with
           | Some _ => Some (tt, {| shadows := shadows m;
                                    slices := <[a := e]> (slices m);
                                    trace := trace m |})
           | None => None
           end.

Definition element_zero : GtkShadowElement :=
  {| hoffset := 0; voffset := 0; radius := 0; spread := 0; inset := false;
     color := rgba_zero; symbolic_color := None |}.

(** [g_slice_new0 (GtkShadowElement)] *)
Definition g_slice_new0_element : M addr :=
  fun m => let a := fresh (dom (slices m)) in
           Some (a, {| shadows := shadows m;
                       slices := <[a := element_zero]> (slices m);
                       trace := trace m |}).

Definition g_slice_free_element (a : addr) : M unit :=
  fun m => match slices m !! a with
           | Some _ => Some (tt, {| shadows := shadows m;
                                    slices := delete a (slices m);
                                    trace := trace m |})
           | None => None
           end.

(** [g_list_length] counts the nodes in a [guint]; [g_list_last] is the
    position of the last node, counted from one, with 0 for NULL. *)
Definition g_list_length (l : list addr) : Z := guint_wrap (Z.of_nat (length l)).
Definition g_list_last (l : list addr) : nat := length l.

(** ** GtkShadowElement *)

Section Shadow.

(** The collaborators whose code is elsewhere.  [gtk_symbolic_color_resolve]
    answers [Some color] for TRUE with the color it wrote, [None] for FALSE. *)
Variable gtk_symbolic_color_resolve : ptr -> ptr -> option GdkRGBA.
Variable gtk_symbolic_color_to_string : addr -> string.
Variable gdk_rgba_to_string : GdkRGBA -> string.

Definition shadow_element_to_string (element : GtkShadowElement) : string :=
  let str := "" in
  let str := if inset element then str +:+ "inset " else str in
  let str := str +:+ (printf_d (hoffset element) +:+ " "
                     +:+ printf_d (voffset element) +:+ " ") in
  let str := if radius element =? 0 then str
             else str +:+ (printf_d (radius element) +:+ " ") in
  let str := if spread element =? 0 then str
             else str +:+ (printf_d (spread element) +:+ " ") in
  let color_str :=
    match symbolic_color element with
    | Some c => gtk_symbolic_color_to_string c
    | None => gdk_rgba_to_string (color element)
    end in
  str +:+ color_str.

Definition shadow_element_free (element : addr) : M unit :=
  let* e := load_element element in
  let* _ := match symbolic_color e with
            | Some c => emit (gtk_symbolic_color_unref_call c)
            | None => ret tt
            end in
  g_slice_free_element element.

Definition shadow_element_new (hoffset voffset radius spread : gdouble)
    (inset : bool) (color : option GdkRGBA) (symbolic_color : ptr) : M addr :=
  let* retval := g_slice_new0_element in
  let* _ := match symbolic_color with
            | Some c => emit (gtk_symbolic_color_ref_call c)
            | None => ret tt
            end in
  let* _ := store_element retval
              {| hoffset := gint16_of_gdouble hoffset;
                 voffset := gint16_of_gdouble voffset;
                 radius := gint16_of_gdouble radius;
                 spread := gint16_of_gdouble spread;
                 inset := inset;
                 color := match color with Some c => c | None => rgba_zero end;
                 symbolic_color := symbolic_color |} in
  ret retval.

(** ** GtkShadow *)

Definition _gtk_shadow_new : M addr :=
  let* retval := g_slice_new0_shadow in
  let* _ := store_shadow retval
              {| elements := []; ref_count := 1; resolved := false |} in
  ret retval.

Definition _gtk_shadow_ref (shadow : ptr) : M ptr :=
  match shadow with
  | None =>
      let* _ := emit (g_return_if_fail_warning "_gtk_shadow_ref"
                                               "shadow != NULL") in
      ret None
  | Some a =>
      let* s := load_shadow a in
      let* _ := store_shadow a {| elements := elements s;
                                  ref_count := guint_wrap (ref_count s + 1);
                                  resolved := resolved s |} in
      ret (Some a)
  end.

Definition _gtk_shadow_get_resolved (shadow : ptr) : M bool :=
  match shadow with
  | None => stuck
  | Some a => let* s := load_shadow a in ret (resolved s)
  end.

(** [g_list_free_full (list, shadow_element_free)] *)
Fixpoint g_list_free_full (l : list addr) : M unit :=
  match l with
  | [] => ret tt
  | data :: next =>
      let* _ := shadow_element_free data in
      g_list_free_full next
  end.

Definition _gtk_shadow_unref (shadow : ptr) : M unit :=
  match shadow with
  | None => emit (g_return_if_fail_warning "_gtk_shadow_unref" "shadow != NULL")
  | Some a =>
      let* s := load_shadow a in
      let count := guint_wrap (ref_count s - 1) in
      let* _ := store_shadow a {| elements := elements s; ref_count := count;
                                  resolved := resolved s |} in
      if count =? 0
      then let* _ := g_list_free_full (elements s) in
           g_slice_free_shadow a
      else ret tt
  end.

Definition _gtk_shadow_append (shadow : ptr)
    (hoffset voffset radius spread : gdouble) (inset : bool) (color : ptr)
    : M unit :=
  match shadow with
  | None => emit (g_return_if_fail_warning "_gtk_shadow_append" "shadow != NULL")
  | Some a =>
      match color with
      | None =>
          emit (g_return_if_fail_warning "_gtk_shadow_append" "color != NULL")
      | Some c =>
          let* element := shadow_element_new hoffset voffset radius spread
                                             inset None (Some c) in
          let* s := load_shadow a in
          store_shadow a {| elements := elements s ++ [element];
                            ref_count := ref_count s;
                            resolved := resolved s |}
      end
  end.

(** The body of the [for] loop of [_gtk_shadow_resolve], from node [l] on.
    [None] means the loop ran off the end of the list; [Some r] means the
    function returned [r] from inside the loop. *)
Fixpoint resolve_loop (props : ptr) (resolved_shadow : addr) (l : list addr)
    : M (option ptr) :=
  match l with
  | [] => ret None
  | data :: next =>
      let* element := load_element data in
      let* _ := emit (gtk_symbolic_color_resolve_call
                        (symbolic_color element) props) in
      match gtk_symbolic_color_resolve (symbolic_color element) props with
      | None =>
          let* _ := _gtk_shadow_unref (Some resolved_shadow) in
          ret (Some None)
      | Some color =>
          let* resolved_element :=
            shadow_element_new (gdouble_of_gint (hoffset element))
                               (gdouble_of_gint (voffset element))
                               (gdouble_of_gint (radius element))
                               (gdouble_of_gint (spread element))
                               (inset element) (Some color) None in
          let* r := load_shadow resolved_shadow in
          let* _ := store_shadow resolved_shadow
                      {| elements := elements r ++ [resolved_element];
                         ref_count := ref_count r;
                         resolved := resolved r |} in
          resolve_loop props resolved_shadow next
      end
  end.

Definition _gtk_shadow_resolve (shadow : ptr) (props : ptr) : M ptr :=
  match shadow with
  | None => stuck
  | Some a =>
      let* s := load_shadow a in
      if resolved s then _gtk_shadow_ref shadow
      else
        let* resolved_shadow := _gtk_shadow_new in
        let* r := resolve_loop props resolved_shadow (elements s) in
        match r with
        | Some result => ret result
        | None =>
            let* rs := load_shadow resolved_shadow in
            let* _ := store_shadow resolved_shadow
                        {| elements := elements rs; ref_count := ref_count rs;
                           resolved := true |} in
            ret (Some resolved_shadow)
        end
  end.

(** The second loop of [_gtk_shadow_to_string]: every further node adds the
    separator and then its own text to the buffer. *)
Fixpoint to_string_loop (l : list addr) (str : string) : M string :=
  match l with
  | [] => ret str
  | data :: next =>
      let* element := load_element data in
      let str := str +:+ ", " in
      let str := str +:+ shadow_element_to_string element in
      to_string_loop next str
  end.

Definition _gtk_shadow_to_string (shadow : ptr) : M (option string) :=
  match shadow with
  | None => stuck
  | Some a =>
      let* s := load_shadow a in
      let length := gint_wrap (g_list_length (elements s)) in
      if length =? 0 then ret None
      else
        match elements s with
        | [] => stuck
        | data :: next =>
            let* element := load_element data in
            let str := "" +:+ shadow_element_to_string element in
            if length =? 1 then ret (Some str)
            else
              let* str := to_string_loop next str in
              ret (Some str)
        end
  end.

(** The loop of [_gtk_text_shadow_paint_layout].  The cursor [l] is a node
    position counted from one (0 is NULL), so [l->prev] is its
    predecessor. *)
Fixpoint paint_loop (nodes : list addr) (l : nat) (cr : cairo_t) (layout : ptr)
    : M cairo_t :=
  match l with
  | O => ret cr
  | S prev =>
      match nodes !! prev with
      | None => stuck
      | Some data =>
          let* element := load_element data in
          let cr := cairo_save cr in
          let cr := cairo_rel_move_to cr (gdouble_of_gint (hoffset element))
                                         (gdouble_of_gint (voffset element)) in
          let cr := gdk_cairo_set_source_rgba cr (color element) in
          let cr := _gtk_pango_fill_layout cr layout in
          let cr := cairo_rel_move_to cr (gdouble_of_gint (- hoffset element))
                                         (gdouble_of_gint (- voffset element)) in
          let cr := cairo_restore cr in
          paint_loop nodes prev cr layout
      end
  end.

Definition _gtk_text_shadow_paint_layout (shadow : ptr) (cr : cairo_t)
    (layout : ptr) : M cairo_t :=
  let cr := if cairo_has_current_point cr then cr
            else cairo_move_to cr 0%Q 0%Q in
  match shadow with
  | None => stuck
  | Some a =>
      let* s := load_shadow a in
      paint_loop (elements s) (g_list_last (elements s)) cr layout
  end.

(** ** The interface as a whole *)

(** The calls of gtkshadowprivate.h. *)
Inductive call :=
| call_new
| call_ref (shadow : ptr)
| call_unref (shadow : ptr)
| call_append (shadow : ptr) (hoffset voffset radius spread : gdouble)
              (inset : bool) (color : ptr)
| call_resolve (shadow props : ptr)
| call_to_string (shadow : ptr)
| call_paint_layout (shadow : ptr) (cr : cairo_t) (layout : ptr).

(** Appending is a defined operation on a list that has not been resolved;
    the other calls are constrained only by what the store lets them do. *)
Definition defined (c : call) (m : memory) : Prop :=
  match c with
  | call_append (Some a) _ _ _ _ _ (Some _) =>
      exists s, shadows m !! a = Some s /\ resolved s = false
  | _ => True
  end.

Definition run (c : call) : M unit :=
  match c with
  | call_new => let* _ := _gtk_shadow_new in ret tt
  | call_ref shadow => let* _ := _gtk_shadow_ref shadow in ret tt
  | call_unref shadow => _gtk_shadow_unref shadow
  | call_append shadow hoffset voffset radius spread inset color =>
      _gtk_shadow_append shadow hoffset voffset radius spread inset color
  | call_resolve shadow props =>
      let* _ := _gtk_shadow_resolve shadow props in ret tt
  | call_to_string shadow =>
      let* _ := _gtk_shadow_to_string shadow in ret tt
  | call_paint_layout shadow cr layout =>
      let* _ := _gtk_text_shadow_paint_layout shadow cr layout in ret tt
  end.

Inductive reachable : memory -> Prop :=
| reachable_empty : reachable empty_memory
| reachable_call m c m' :
    reachable m -> defined c m -> run c m = Some (tt, m') -> reachable m'.

End Shadow.

(** * Vocabulary of the statements *)

(** [loaded h l es]: the nodes of [l] point to live elements whose contents
    are [es], in order. *)
Definition loaded (h : gmap addr GtkShadowElement) (l : list addr)
    (es : list GtkShadowElement) : Prop :=
  Forall2 (fun a e => h !! a = Some e) l es.

(** The events a new element adds: one reference taken when it carries a
    symbolic color. *)
Definition ref_events (symbolic_color : ptr) : list event :=
  match symbolic_color with
  | Some c => [gtk_symbolic_color_ref_call c]
  | None => []
  end.

Definition unref_events (e : GtkShadowElement) : list event :=
  match symbolic_color e with
  | Some c => [gtk_symbolic_color_unref_call c]
  | None => []
  end.

Definition element_of (hoffset voffset radius spread : gdouble) (inset : bool)
    (color : option GdkRGBA) (symbolic_color : ptr) : GtkShadowElement :=
  {| hoffset := gint16_of_gdouble hoffset;
     voffset := gint16_of_gdouble voffset;
     radius := gint16_of_gdouble radius;
     spread := gint16_of_gdouble spread;
     inset := inset;
     color := match color with Some c => c | None => rgba_zero end;
     symbolic_color := symbolic_color |}.

(** The numbers of [e] come from the arguments [h], [v], [r] and [sp]:
    each argument whose integer part is a [gint16] is in [e] as that
    integer part. *)
Definition stores_integer_parts (h v r sp : gdouble) (e : GtkShadowElement)
    : Prop :=
  (gint16_range (gdouble_trunc h) -> hoffset e = gdouble_trunc h) /\
  (gint16_range (gdouble_trunc v) -> voffset e = gdouble_trunc v) /\
  (gint16_range (gdouble_trunc r) -> radius e = gdouble_trunc r) /\
  (gint16_range (gdouble_trunc sp) -> spread e = gdouble_trunc sp).

(** Allocation of a run of elements.

    What a loop that creates one element per step leaves in the store:
    every value sits at the address that was fresh when its turn came. *)

Fixpoint alloc_all (h : gmap addr GtkShadowElement) (vs : list GtkShadowElement)
    : list addr * gmap addr GtkShadowElement :=
  match vs with
  | [] => ([], h)
  | v :: vs' =>
      let a := fresh (dom h) in
      let r := alloc_all (<[a := v]> h) vs' in
      (a :: r.1, r.2)
  end.

(** The calls to the resolver for a run of elements, in order. *)
Definition resolve_events (props : ptr) (es : list GtkShadowElement)
    : list event :=
  map (fun e => gtk_symbolic_color_resolve_call (symbolic_color e) props) es.

(** The element the loop builds from [e] once the resolver has said [c]. *)
Definition resolved_copy (e : GtkShadowElement) (c : GdkRGBA) : GtkShadowElement :=
  element_of (gdouble_of_gint (hoffset e)) (gdouble_of_gint (voffset e))
             (gdouble_of_gint (radius e)) (gdouble_of_gint (spread e))
             (inset e) (Some c) None.

(** The resolver's answer for the symbolic color of [e]. *)
Definition resolves (resolver : ptr -> ptr -> option GdkRGBA) (props : ptr)
    (e : GtkShadowElement) (c : GdkRGBA) : Prop :=
  resolver (symbolic_color e) props = Some c.

Definition fails (resolver : ptr -> ptr -> option GdkRGBA) (props : ptr)
    (e : GtkShadowElement) : Prop :=
  resolver (symbolic_color e) props = None.

(** The fields of an element are [gint16] values. *)
Definition element_in_range (e : GtkShadowElement) : Prop :=
  gint16_range (hoffset e) /\ gint16_range (voffset e) /\
  gint16_range (radius e) /\ gint16_range (spread e).

(** [e] with the color [c] and without its symbolic color. *)
Definition concrete_copy (e : GtkShadowElement) (c : GdkRGBA) : GtkShadowElement :=
  {| hoffset := hoffset e; voffset := voffset e; radius := radius e;
     spread := spread e; inset := inset e; color := c;
     symbolic_color := None |}.

(** What the second loop of [_gtk_shadow_to_string] adds to the buffer. *)
Definition join_rest (ss : list string) : string :=
  foldr (fun s acc => ", " +:+ s +:+ acc) "" ss.

(** The calls [_gtk_text_shadow_paint_layout] makes for one element. *)
Definition paint_calls (layout : ptr) (e : GtkShadowElement) : list cairo_call :=
  [ cairo_save_call;
    cairo_rel_move_to_call (inject_Z (hoffset e)) (inject_Z (voffset e));
    gdk_cairo_set_source_rgba_call (color e);
    gtk_pango_fill_layout_call layout;
    cairo_rel_move_to_call (inject_Z (- hoffset e)) (inject_Z (- voffset e));
    cairo_restore_call ].

Fixpoint count_fills (cs : list cairo_call) : nat :=
  match cs with
  | [] => 0
  | gtk_pango_fill_layout_call _ :: cs' => S (count_fills cs')
  | _ :: cs' => count_fills cs'
  end.

(** An element is concrete when it carries no symbolic color, symbolic
    when it carries one. *)
Definition concrete (e : GtkShadowElement) : Prop := symbolic_color e = None.
Definition symbolic (e : GtkShadowElement) : Prop := symbolic_color e <> None.

(** What keeps the flag honest: every node of every list is live, the
    elements of a resolved list are concrete and those of an unresolved one
    symbolic, and no element sits twice in a list or in two lists. *)
Record shadow_inv (m : memory) : Prop := {
  inv_elements : forall a s, shadows m !! a = Some s ->
    exists es, loaded (slices m) (elements s) es /\
               Forall (fun e => if resolved s then concrete e else symbolic e) es;
  inv_nodup : forall a s, shadows m !! a = Some s -> NoDup (elements s);
  inv_disjoint : forall a b s t x, a <> b ->
    shadows m !! a = Some s -> shadows m !! b = Some t ->
    x ∈ elements s -> x ∉ elements t
}.

(** A client that builds a list layer by layer: the arguments of one
    [_gtk_shadow_append] with a color that is not NULL, and the calls for a
    run of them. *)
Record layer := {
  layer_hoffset : gdouble;
  layer_voffset : gdouble;
  layer_radius : gdouble;
  layer_spread : gdouble;
  layer_inset : bool;
  layer_color : addr
}.

Fixpoint append_layers (shadow : ptr) (ls : list layer) : M unit :=
  match ls with
  | [] => ret tt
  | l :: ls' =>
      let* _ := _gtk_shadow_append shadow (layer_hoffset l) (layer_voffset l)
                  (layer_radius l) (layer_spread l) (layer_inset l)
                  (Some (layer_color l)) in
      append_layers shadow ls'
  end.

(** The element [_gtk_shadow_append] makes for a layer. *)
Definition layer_element (l : layer) : GtkShadowElement :=
  element_of (layer_hoffset l) (layer_voffset l) (layer_radius l)
             (layer_spread l) (layer_inset l) None (Some (layer_color l)).

(** Two elements that the painter cannot tell apart. *)
Definition same_paint (e e' : GtkShadowElement) : Prop :=
  hoffset e = hoffset e' /\ voffset e = voffset e' /\ color e = color e'.

(** Reading a run of cairo calls: the sum of the relative moves in each
    direction, and the depth of saved states after the run, starting from
    depth [d] ([None] when a restore finds nothing saved). *)
Fixpoint net_dx (cs : list cairo_call) : Q :=
  match cs with
  | [] => 0%Q
  | cairo_rel_move_to_call dx _ :: cs' => (dx + net_dx cs')%Q
  | _ :: cs' => net_dx cs'
  end.

Fixpoint net_dy (cs : list cairo_call) : Q :=
  match cs with
  | [] => 0%Q
  | cairo_rel_move_to_call _ dy :: cs' => (dy + net_dy cs')%Q
  | _ :: cs' => net_dy cs'
  end.

Fixpoint save_depth (cs : list cairo_call) (d : nat) : option nat :=
  match cs with
  | [] => Some d
  | cairo_save_call :: cs' => save_depth cs' (S d)
  | cairo_restore_call :: cs' =>
      match d with
      | O => None
      | S d' => save_depth cs' d'
      end
  | _ :: cs' => save_depth cs' d
  end.

(** * A worked example

    A theme that knows two symbolic colors, and stores holding a list of
    two layers written against it. *)

Definition example_red : GdkRGBA :=
  {| red := 1%Q; green := 0%Q; blue := 0%Q; alpha := 1%Q |}.
Definition example_grey : GdkRGBA :=
  {| red := (1 # 2)%Q; green := (1 # 2)%Q; blue := (1 # 2)%Q; alpha := 1%Q |}.

Definition example_resolver (c props : ptr) : option GdkRGBA :=
  match c with
  | Some 1%positive => Some example_red
  | Some 2%positive => Some example_grey
  | _ => None
  end.

Definition example_symbolic_text (c : addr) : string :=
  match c with
  | 1%positive => "@fg"
  | 2%positive => "@bg"
  | _ => "@unknown"
  end.

Definition example_rgba_text (c : GdkRGBA) : string :=
  if Qeq_bool (red c) 1%Q then "red" else "grey".

Definition example_first : GtkShadowElement :=
  {| hoffset := 2; voffset := 2; radius := 0; spread := 0; inset := false;
     color := rgba_zero; symbolic_color := Some 1%positive |}.
Definition example_second : GtkShadowElement :=
  {| hoffset := -1; voffset := 3; radius := -3; spread := 5; inset := true;
     color := rgba_zero; symbolic_color := Some 2%positive |}.
Definition example_unknown : GtkShadowElement :=
  {| hoffset := 0; voffset := 1; radius := 4; spread := 0; inset := false;
     color := rgba_zero; symbolic_color := Some 3%positive |}.

Definition example_list : GtkShadow :=
  {| elements := [1%positive; 2%positive]; ref_count := 1; resolved := false |}.

Definition example_memory : memory :=
  {| shadows := {[ 1%positive := example_list ]};
     slices := <[ 1%positive := example_first ]>
                 {[ 2%positive := example_second ]};
     trace := [] |}.

(** The same list with a third layer whose color the theme does not know. *)
Definition example_failing_list : GtkShadow :=
  {| elements := [1%positive; 2%positive; 3%positive]; ref_count := 1;
     resolved := false |}.

Definition example_failing_memory : memory :=
  {| shadows := {[ 1%positive := example_failing_list ]};
     slices := <[ 1%positive := example_first ]>
                 (<[ 2%positive := example_second ]>
                    {[ 3%positive := example_unknown ]});
     trace := [] |}.

(** The list once resolved. *)
Definition example_resolved_list : GtkShadow :=
  {| elements := [1%positive; 2%positive]; ref_count := 1; resolved := true |}.

Definition example_resolved_memory : memory :=
  {| shadows := {[ 1%positive := example_resolved_list ]};
     slices := <[ 1%positive := concrete_copy example_first example_red ]>
                 {[ 2%positive := concrete_copy example_second example_grey ]};
     trace := [] |}.

Definition example_context : cairo_t :=
  {| cairo_has_current_point := false; cairo_calls := [] |}.

(** The store after [_gtk_shadow_new], an append to the new list, and its
    resolution. *)
Definition example_built_memory : memory :=
  {| shadows :=
       <[ 1%positive := {| elements := [1%positive]; ref_count := 1;
                           resolved := false |} ]>
         {[ 2%positive := {| elements := [2%positive]; ref_count := 1;
                             resolved := true |} ]};
     slices := <[ 1%positive := example_first ]>
                 {[ 2%positive := concrete_copy example_first example_red ]};
     trace := [ gtk_symbolic_color_ref_call 1%positive;
                gtk_symbolic_color_resolve_call (Some 1%positive) None ] |}.

(** The store after [_gtk_shadow_new] alone. *)
Definition example_new_memory : memory :=
  {| shadows := {[ 1%positive := {| elements := []; ref_count := 1;
                                    resolved := false |} ]};
     slices := ∅; trace := [] |}.

Definition example_layers : list layer :=
  [ {| layer_hoffset := 2%Q; layer_voffset := 2%Q; layer_radius := 0%Q;
       layer_spread := 0%Q; layer_inset := false;
       layer_color := 1%positive |};
    {| layer_hoffset := (-1)%Q; layer_voffset := 3%Q; layer_radius := (-3)%Q;
       layer_spread := 5%Q; layer_inset := true;
       layer_color := 2%positive |} ].

(** Two lists whose single layers differ in radius, spread and inset
    only. *)
Definition example_paint_memory : memory :=
  {| shadows :=
       <[ 1%positive := {| elements := [1%positive]; ref_count := 1;
                           resolved := true |} ]>
         {[ 2%positive := {| elements := [2%positive]; ref_count := 1;
                             resolved := true |} ]};
     slices :=
       <[ 1%positive := concrete_copy example_first example_red ]>
         {[ 2%positive :=
              {| hoffset := 2; voffset := 2; radius := 7; spread := 1;
                 inset := true; color := example_red;
                 symbolic_color := None |} ]};
     trace := [] |}.

(** * Properties *)

(** ** Numbers and strings *)

Lemma gint16_wrap_id (z : Z) : gint16_range z -> gint16_wrap z = z.
Proof.
  unfold gint16_range, gint16_wrap. intros Hz.
  rewrite Z.mod_small by lia. lia.
Qed.

Lemma gint16_wrap_range (z : Z) : gint16_range (gint16_wrap z).
Proof.
  unfold gint16_range, gint16_wrap.
  pose proof (Z.mod_pos_bound (z + 32768) 65536). lia.
Qed.

Lemma gdouble_trunc_of_gint (z : Z) : gdouble_trunc (gdouble_of_gint z) = z.
Proof. unfold gdouble_trunc, gdouble_of_gint. simpl. apply Z.quot_1_r. Qed.

Lemma gint16_roundtrip (z : Z) :
  gint16_range z -> gint16_of_gdouble (gdouble_of_gint z) = z.
Proof.
  intros Hz. unfold gint16_of_gdouble.
  rewrite gdouble_trunc_of_gint. by apply gint16_wrap_id.
Qed.

Lemma append_assoc (a b c : string) : (a +:+ b) +:+ c = a +:+ (b +:+ c).
Proof.
  induction a as [|x a IH]; [reflexivity |].
  change (String x ((a +:+ b) +:+ c) = String x (a +:+ (b +:+ c))).
  by rewrite IH.
Qed.

Lemma append_nil_r (a : string) : a +:+ "" = a.
Proof.
  induction a as [|x a IH]; [reflexivity |].
  change (String x (a +:+ "") = String x a). by rewrite IH.
Qed.

(** [Z.to_int] writes numbers without leading zeros and zero without a
    sign. *)
Lemma to_int_norm (z : Z) : Decimal.norm (Z.to_int z) = Z.to_int z.
Proof. by rewrite <- (DecimalZ.to_of (Z.to_int z)), DecimalZ.of_to. Qed.

(** What ["%d"] prints is the decimal numeral of its argument, and no other
    string is. *)
Lemma printf_d_decimal (z : Z) : decimal_numeral z (printf_d z).
Proof.
  exists (Z.to_int z). split; [| split].
  - unfold printf_d. apply NilZero.isi; intros Heq;
      pose proof (to_int_norm z) as Hn; rewrite Heq in Hn; discriminate Hn.
  - apply DecimalZ.of_to.
  - apply to_int_norm.
Qed.

Lemma decimal_numeral_unique (z : Z) (s : string) :
  decimal_numeral z s -> s = printf_d z.
Proof.
  intros (d & Hs & Hz & Hn). unfold printf_d.
  rewrite <- Hz, DecimalZ.to_of, Hn. symmetry. by apply NilZero.sis.
Qed.

Lemma printf_d_negative (z : Z) :
  z < 0 -> exists digits, printf_d z = "-" +:+ digits.
Proof.
  destruct z as [|p|p]; intros Hz; [lia | lia |].
  unfold printf_d. simpl. eauto.
Qed.

(** ** Equations of the store operations *)

Lemma bind_Some {A B} (c : M A) (k : A -> M B) m a m' :
  c m = Some (a, m') -> bind c k m = k a m'.
Proof. unfold bind. by intros ->. Qed.

Lemma bind_inv {A B} (c : M A) (k : A -> M B) m b m2 :
  bind c k m = Some (b, m2) ->
  exists a m1, c m = Some (a, m1) /\ k a m1 = Some (b, m2).
Proof.
  unfold bind. destruct (c m) as [[a m1]|] eqn:E; [eauto | done].
Qed.

Lemma fresh_slice {A} (h : gmap addr A) : h !! fresh (dom h) = None.
Proof. apply not_elem_of_dom, is_fresh. Qed.

Lemma shadow_element_new_eq h v r s i col sym (m : memory) :
  shadow_element_new h v r s i col sym m =
    Some (fresh (dom (slices m)),
          {| shadows := shadows m;
             slices := <[fresh (dom (slices m)) := element_of h v r s i col sym]>
                         (slices m);
             trace := trace m ++ ref_events sym |}).
Proof.
  unfold shadow_element_new, bind, g_slice_new0_element, store_element, ret.
  destruct sym as [c|]; simpl; rewrite lookup_insert_eq, insert_insert_eq;
    [done | by rewrite app_nil_r].
Qed.

Lemma _gtk_shadow_new_eq (m : memory) :
  _gtk_shadow_new m =
    Some (fresh (dom (shadows m)),
          {| shadows := <[fresh (dom (shadows m)) :=
                            {| elements := []; ref_count := 1;
                               resolved := false |}]> (shadows m);
             slices := slices m; trace := trace m |}).
Proof.
  unfold _gtk_shadow_new, bind, g_slice_new0_shadow, store_shadow, ret. simpl.
  by rewrite lookup_insert_eq, insert_insert_eq.
Qed.

Lemma _gtk_shadow_ref_eq a s (m : memory) :
  shadows m !! a = Some s ->
  _gtk_shadow_ref (Some a) m =
    Some (Some a,
          {| shadows := <[a := {| elements := elements s;
                                  ref_count := guint_wrap (ref_count s + 1);
                                  resolved := resolved s |}]> (shadows m);
             slices := slices m; trace := trace m |}).
Proof.
  intros Hs. unfold _gtk_shadow_ref, bind, load_shadow, store_shadow, ret.
  rewrite Hs. simpl. by rewrite Hs.
Qed.

Lemma shadow_element_free_eq a e (m : memory) :
  slices m !! a = Some e ->
  shadow_element_free a m =
    Some (tt, {| shadows := shadows m; slices := delete a (slices m);
                 trace := trace m ++ unref_events e |}).
Proof.
  intros He.
  unfold shadow_element_free, bind, load_element, g_slice_free_element,
    unref_events, emit, ret.
  rewrite He. destruct (symbolic_color e); simpl; rewrite He;
    [done | by rewrite app_nil_r].
Qed.

Lemma loaded_length h l es : loaded h l es -> length l = length es.
Proof. apply Forall2_length. Qed.

Lemma loaded_insert_fresh h l es a e :
  h !! a = None -> loaded h l es -> loaded (<[a := e]> h) l es.
Proof.
  intros Ha Hl. eapply Forall2_impl; [exact Hl |].
  intros b x Hb. simpl in *. rewrite lookup_insert_ne; [done | congruence].
Qed.

Lemma loaded_delete_notin h l es a :
  a ∉ l -> loaded h l es -> loaded (delete a h) l es.
Proof.
  intros Ha Hl. induction Hl as [|b x l es Hb Hl IH]; constructor.
  - rewrite lookup_delete_ne; [done |]. intros ->. apply Ha. by left.
  - apply IH. intros Hin. apply Ha. by right.
Qed.

Lemma loaded_live h l es a : loaded h l es -> a ∈ l -> is_Some (h !! a).
Proof.
  intros Hl Ha. apply list_elem_of_lookup in Ha as [i Hi].
  destruct (Forall2_lookup_l _ _ _ _ _ Hl Hi) as (y & _ & Hy). eauto.
Qed.

Lemma loaded_inj h l es es' : loaded h l es -> loaded h l es' -> es = es'.
Proof.
  intros H. revert es'. induction H as [|a e l es Ha Hl IH]; intros es' H'.
  - by inversion H'.
  - inversion H' as [|? e' ? es'' Ha' Hl']; subst.
    f_equal; [congruence | by apply IH].
Qed.

Lemma g_list_free_full_eq l : forall es (m : memory),
  NoDup l -> loaded (slices m) l es ->
  g_list_free_full l m =
    Some (tt, {| shadows := shadows m; slices := foldr delete (slices m) l;
                 trace := trace m ++ concat (map unref_events es) |}).
Proof.
  induction l as [|data next IH]; intros es m Hnd Hl.
  - inversion Hl; subst. simpl. unfold ret. rewrite app_nil_r.
    by destruct m.
  - inversion Hl as [|? e ? es' He Hl']; subst.
    apply NoDup_cons in Hnd as [Hnotin Hnd]. simpl.
    erewrite bind_Some by (by apply shadow_element_free_eq).
    erewrite IH; [| done | by apply loaded_delete_notin].
    simpl. by rewrite delete_foldr_delete, <- app_assoc.
Qed.

Lemma _gtk_shadow_unref_keep a s (m : memory) :
  shadows m !! a = Some s ->
  guint_wrap (ref_count s - 1) <> 0 ->
  _gtk_shadow_unref (Some a) m =
    Some (tt, {| shadows := <[a := {| elements := elements s;
                                      ref_count := guint_wrap (ref_count s - 1);
                                      resolved := resolved s |}]> (shadows m);
                 slices := slices m; trace := trace m |}).
Proof.
  intros Hs Hc. unfold _gtk_shadow_unref, bind, load_shadow, store_shadow.
  rewrite Hs. simpl. rewrite Hs.
  destruct (Z.eqb_spec (guint_wrap (ref_count s - 1)) 0); [done | easy].
Qed.

Lemma _gtk_shadow_unref_last a s es (m : memory) :
  shadows m !! a = Some s ->
  guint_wrap (ref_count s - 1) = 0 ->
  NoDup (elements s) -> loaded (slices m) (elements s) es ->
  _gtk_shadow_unref (Some a) m =
    Some (tt, {| shadows := delete a (shadows m);
                 slices := foldr delete (slices m) (elements s);
                 trace := trace m ++ concat (map unref_events es) |}).
Proof.
  intros Hs Hc Hnd Hl. unfold _gtk_shadow_unref.
  erewrite bind_Some by (unfold load_shadow; by rewrite Hs).
  erewrite bind_Some by (unfold store_shadow; by rewrite Hs).
  rewrite Hc. simpl.
  erewrite bind_Some by (by apply g_list_free_full_eq).
  unfold g_slice_free_shadow. simpl.
  by rewrite lookup_insert_eq, delete_insert_eq.
Qed.

Lemma _gtk_shadow_append_eq a s h v r sp i c (m : memory) :
  shadows m !! a = Some s ->
  _gtk_shadow_append (Some a) h v r sp i (Some c) m =
    Some (tt, {| shadows := <[a := {| elements :=
                                        elements s ++ [fresh (dom (slices m))];
                                      ref_count := ref_count s;
                                      resolved := resolved s |}]> (shadows m);
                 slices := <[fresh (dom (slices m)) :=
                               element_of h v r sp i None (Some c)]> (slices m);
                 trace := trace m ++ [gtk_symbolic_color_ref_call c] |}).
Proof.
  intros Hs. unfold _gtk_shadow_append.
  erewrite bind_Some by apply shadow_element_new_eq.
  unfold bind, load_shadow, store_shadow. simpl. rewrite Hs. simpl.
  by rewrite Hs.
Qed.

(** ** Allocation of a run of elements *)

Lemma alloc_all_length vs : forall h, length (alloc_all h vs).1 = length vs.
Proof. induction vs as [|v vs IH]; intros h; simpl; [done | by rewrite IH]. Qed.

Lemma alloc_all_old vs : forall h a e,
  h !! a = Some e -> (alloc_all h vs).2 !! a = Some e.
Proof.
  induction vs as [|v vs IH]; intros h a e Ha; simpl; [done |].
  apply IH. rewrite lookup_insert_ne; [done |].
  intros <-. by rewrite fresh_slice in Ha.
Qed.

Lemma alloc_all_fresh vs : forall h,
  Forall (fun a => h !! a = None) (alloc_all h vs).1.
Proof.
  induction vs as [|v vs IH]; intros h; simpl; constructor.
  - apply fresh_slice.
  - eapply Forall_impl; [apply IH |]. intros a Ha. simpl in Ha.
    apply lookup_insert_None in Ha. tauto.
Qed.

Lemma alloc_all_NoDup vs : forall h, NoDup (alloc_all h vs).1.
Proof.
  induction vs as [|v vs IH]; intros h; simpl; constructor; [| apply IH].
  intros Hin.
  pose proof (alloc_all_fresh vs (<[fresh (dom h) := v]> h)) as Hf.
  rewrite Forall_forall in Hf. specialize (Hf _ Hin).
  by rewrite lookup_insert_eq in Hf.
Qed.

Lemma alloc_all_loaded vs : forall h,
  loaded (alloc_all h vs).2 (alloc_all h vs).1 vs.
Proof.
  induction vs as [|v vs IH]; intros h; simpl; constructor; [| apply IH].
  apply alloc_all_old, lookup_insert_eq.
Qed.

Lemma alloc_all_lookup vs : forall h a,
  a ∉ (alloc_all h vs).1 -> (alloc_all h vs).2 !! a = h !! a.
Proof.
  induction vs as [|v vs IH]; intros h a Ha; simpl in *; [done |].
  apply not_elem_of_cons in Ha as [Hne Ha].
  rewrite IH by done. by apply lookup_insert_ne.
Qed.

Lemma alloc_all_loaded_old vs h l es :
  loaded h l es -> loaded (alloc_all h vs).2 l es.
Proof.
  intros Hl. eapply Forall2_impl; [exact Hl |].
  intros a e Ha. by apply alloc_all_old.
Qed.

(** ** Resolution *)

Section Resolve.

Variable resolver : ptr -> ptr -> option GdkRGBA.
Variable props : ptr.

Lemma resolve_loop_ok l : forall es cs (m : memory) rs r,
  shadows m !! rs = Some r ->
  loaded (slices m) l es ->
  Forall2 (resolves resolver props) es cs ->
  resolve_loop resolver props rs l m =
    Some (None,
          {| shadows :=
               <[rs := {| elements :=
                            elements r ++
                            (alloc_all (slices m) (zip_with resolved_copy es cs)).1;
                          ref_count := ref_count r;
                          resolved := resolved r |}]> (shadows m);
             slices := (alloc_all (slices m) (zip_with resolved_copy es cs)).2;
             trace := trace m ++ resolve_events props es |}).
Proof.
  induction l as [|data next IH]; intros es cs m rs r Hrs Hl Hcs.
  - inversion Hl; subst. inversion Hcs; subst. simpl. unfold ret.
    rewrite !app_nil_r. rewrite insert_id; [by destruct m |].
    rewrite Hrs. by destruct r.
  - inversion Hl as [|? e ? es' He Hl']; subst.
    inversion Hcs as [|? c ? cs' Hc Hcs']; subst.
    simpl. unfold resolves in Hc.
    erewrite bind_Some by (unfold load_element; by rewrite He).
    erewrite bind_Some by reflexivity.
    rewrite Hc.
    erewrite bind_Some by apply shadow_element_new_eq.
    erewrite bind_Some by (unfold load_shadow; simpl; by rewrite Hrs).
    erewrite bind_Some by (unfold store_shadow; simpl; by rewrite Hrs).
    erewrite IH; [| apply lookup_insert_eq
                  | apply loaded_insert_fresh; [apply fresh_slice | exact Hl']
                  | exact Hcs'].
    simpl. rewrite insert_insert_eq, app_nil_r, <- !app_assoc. reflexivity.
Qed.

Lemma unref_events_concrete ces :
  Forall (fun x => symbolic_color x = None) ces ->
  concat (map unref_events ces) = [].
Proof.
  induction 1 as [|x ces Hx _ IH]; simpl; [done |].
  unfold unref_events at 1. by rewrite Hx.
Qed.

Lemma resolve_loop_fail pre : forall l e post cs (m : memory) rs cur ces,
  shadows m !! rs = Some {| elements := cur; ref_count := 1; resolved := false |} ->
  NoDup cur ->
  loaded (slices m) cur ces ->
  Forall (fun x => symbolic_color x = None) ces ->
  loaded (slices m) l (pre ++ e :: post) ->
  Forall2 (resolves resolver props) pre cs ->
  fails resolver props e ->
  resolve_loop resolver props rs l m =
    Some (Some None,
          {| shadows := delete rs (shadows m);
             slices := foldr delete (slices m) cur;
             trace := trace m ++ resolve_events props (pre ++ [e]) |}).
Proof.
  induction pre as [|p pre IH];
    intros l e post cs m rs cur ces Hrs Hnd Hcur Hconc Hl Hcs Hfail.
  - inversion Hl as [|data ? next ? He Hl']; subst. simpl.
    erewrite bind_Some by (unfold load_element; by rewrite He).
    erewrite bind_Some by reflexivity.
    unfold fails in Hfail. rewrite Hfail.
    erewrite bind_Some;
      [| eapply (_gtk_shadow_unref_last rs _ ces); simpl; eauto ].
    simpl. unfold ret.
    by rewrite unref_events_concrete, app_nil_r.
  - inversion Hl as [|data ? next ? He Hl']; subst.
    inversion Hcs as [|? c ? cs' Hc Hcs']; subst.
    simpl. unfold resolves in Hc.
    erewrite bind_Some by (unfold load_element; by rewrite He).
    erewrite bind_Some by reflexivity.
    rewrite Hc.
    erewrite bind_Some by apply shadow_element_new_eq.
    erewrite bind_Some by (unfold load_shadow; simpl; by rewrite Hrs).
    erewrite bind_Some by (unfold store_shadow; simpl; by rewrite Hrs).
    pose proof (fresh_slice (slices m)) as Hfresh.
    erewrite (IH next e post cs' _ rs (cur ++ [fresh (dom (slices m))])
                 (ces ++ [resolved_copy p c])); simpl.
    + rewrite delete_insert_eq, app_nil_r, <- !app_assoc.
      rewrite foldr_delete_insert_in by set_solver.
      rewrite foldr_app. simpl. by rewrite (delete_id _ _ Hfresh).
    + apply lookup_insert_eq.
    + apply NoDup_app. split; [done |]. split; [| apply NoDup_singleton].
      intros x Hx Hin. apply list_elem_of_singleton in Hin. subst x.
      destruct (loaded_live _ _ _ _ Hcur Hx) as [y Hy]. congruence.
    + apply Forall2_app.
      * by apply loaded_insert_fresh.
      * constructor; [apply lookup_insert_eq | constructor].
    + apply Forall_app. split; [done |]. by constructor.
    + by apply loaded_insert_fresh.
    + done.
    + done.
Qed.

Lemma fails_or_resolves e : fails resolver props e \/ exists c, resolves resolver props e c.
Proof.
  unfold fails, resolves.
  destruct (resolver (symbolic_color e) props); eauto.
Qed.

Lemma first_failure es :
  Exists (fails resolver props) es ->
  exists pre e post cs,
    es = pre ++ e :: post /\ Forall2 (resolves resolver props) pre cs /\ fails resolver props e.
Proof.
  induction es as [|x es IH]; intros Hex; [by inversion Hex |].
  destruct (fails_or_resolves x) as [Hx | [c Hc]].
  - exists [], x, es, []. by repeat split; try constructor.
  - apply Exists_cons in Hex as [Hx | Hex].
    { unfold fails, resolves in *. congruence. }
    destruct (IH Hex) as (pre & e & post & cs & -> & Hpre & He).
    exists (x :: pre), e, post, (c :: cs). by repeat split; try constructor.
Qed.

Lemma all_resolve_or_fail es :
  (exists cs, Forall2 (resolves resolver props) es cs) \/ Exists (fails resolver props) es.
Proof.
  induction es as [|x es [[cs Hcs] | Hex]].
  - left. exists []. constructor.
  - destruct (fails_or_resolves x) as [Hx | [c Hc]].
    + right. by left.
    + left. exists (c :: cs). by constructor.
  - right. by right.
Qed.

Lemma resolves_not_fails pre cs :
  Forall2 (resolves resolver props) pre cs -> Forall (fun x => ~ fails resolver props x) pre.
Proof.
  induction 1 as [|x c pre cs Hx _ IH]; constructor; [| done].
  unfold fails, resolves in *. congruence.
Qed.

Lemma _gtk_shadow_resolve_resolved_eq a s (m : memory) :
  shadows m !! a = Some s -> resolved s = true ->
  _gtk_shadow_resolve resolver (Some a) props m =
    Some (Some a,
          {| shadows := <[a := {| elements := elements s;
                                  ref_count := guint_wrap (ref_count s + 1);
                                  resolved := true |}]> (shadows m);
             slices := slices m; trace := trace m |}).
Proof.
  intros Hs Hr. unfold _gtk_shadow_resolve.
  erewrite bind_Some by (unfold load_shadow; by rewrite Hs).
  rewrite Hr. erewrite _gtk_shadow_ref_eq by done. by rewrite Hr.
Qed.

Lemma _gtk_shadow_resolve_fail_eq a s pre e post cs (m : memory) :
  shadows m !! a = Some s -> resolved s = false ->
  loaded (slices m) (elements s) (pre ++ e :: post) ->
  Forall2 (resolves resolver props) pre cs -> fails resolver props e ->
  _gtk_shadow_resolve resolver (Some a) props m =
    Some (None, {| shadows := shadows m; slices := slices m;
                   trace := trace m ++ resolve_events props (pre ++ [e]) |}).
Proof.
  intros Hs Hr Hl Hpre He. unfold _gtk_shadow_resolve.
  erewrite bind_Some by (unfold load_shadow; by rewrite Hs).
  rewrite Hr. erewrite bind_Some by apply _gtk_shadow_new_eq.
  erewrite bind_Some;
    [| eapply (resolve_loop_fail pre _ e post cs _ _ [] []); simpl; eauto;
       first [apply lookup_insert_eq | constructor] ].
  simpl. unfold ret.
  by rewrite delete_insert_eq, (delete_id _ _ (fresh_slice (shadows m))).
Qed.

Lemma _gtk_shadow_resolve_ok_eq a s es cs (m : memory) :
  shadows m !! a = Some s -> resolved s = false ->
  loaded (slices m) (elements s) es ->
  Forall2 (resolves resolver props) es cs ->
  _gtk_shadow_resolve resolver (Some a) props m =
    Some (Some (fresh (dom (shadows m))),
          {| shadows :=
               <[fresh (dom (shadows m)) :=
                   {| elements :=
                        (alloc_all (slices m) (zip_with resolved_copy es cs)).1;
                      ref_count := 1; resolved := true |}]> (shadows m);
             slices := (alloc_all (slices m) (zip_with resolved_copy es cs)).2;
             trace := trace m ++ resolve_events props es |}).
Proof.
  intros Hs Hr Hl Hcs. unfold _gtk_shadow_resolve.
  erewrite bind_Some by (unfold load_shadow; by rewrite Hs).
  rewrite Hr. erewrite bind_Some by apply _gtk_shadow_new_eq.
  erewrite bind_Some;
    [| eapply (resolve_loop_ok _ es cs); simpl; eauto; apply lookup_insert_eq ].
  simpl. unfold bind, load_shadow, store_shadow, ret. simpl.
  rewrite !lookup_insert_eq. simpl. rewrite !lookup_insert_eq.
  by rewrite !insert_insert_eq.
Qed.
Lemma resolved_copy_in_range e c :
  element_in_range e -> resolved_copy e c = concrete_copy e c.
Proof.
  intros (Hh & Hv & Hr & Hs). unfold resolved_copy, element_of, concrete_copy.
  by rewrite !gint16_roundtrip.
Qed.

(** C1. Fail-fast resolution.  When the resolver fails on some element of
    an unresolved list, [_gtk_shadow_resolve] returns NULL; the store of
    lists and the store of elements are exactly what they were before the
    call, so the output list under construction and every element made for
    it have been released and no list other than the ones that existed
    before is left for the caller; and the resolver was called on the
    elements up to the first failing one, in order, and on none after it. *)
Theorem resolve_fail_fast (m : memory) a s es :
  shadows m !! a = Some s ->
  resolved s = false ->
  loaded (slices m) (elements s) es ->
  Exists (fails resolver props) es ->
  exists pre e post,
    es = pre ++ e :: post /\
    Forall (fun x => ~ fails resolver props x) pre /\
    fails resolver props e /\
    _gtk_shadow_resolve resolver (Some a) props m =
      Some (None, {| shadows := shadows m; slices := slices m;
                     trace := trace m ++ resolve_events props (pre ++ [e]) |}).
Proof.
  intros Hs Hr Hl Hex.
  destruct (first_failure es Hex) as (pre & e & post & cs & -> & Hpre & He).
  exists pre, e, post. repeat split; [| done |].
  - by eapply resolves_not_fails.
  - by eapply _gtk_shadow_resolve_fail_eq.
Qed.

(** C2. Idempotent resolution.  On a list whose resolved flag is set,
    [_gtk_shadow_resolve] returns the address it was given; the only change
    to the store is that list's reference count, incremented by one in
    [guint] arithmetic (plainly by one below the top of the range).  The
    elements are not read (they need not even be live) and the trace is
    unchanged: the resolver is not called. *)
Theorem resolve_resolved_same_instance (m : memory) a s :
  shadows m !! a = Some s ->
  resolved s = true ->
  _gtk_shadow_resolve resolver (Some a) props m =
    Some (Some a,
          {| shadows := <[a := {| elements := elements s;
                                  ref_count := guint_wrap (ref_count s + 1);
                                  resolved := true |}]> (shadows m);
             slices := slices m; trace := trace m |}) /\
  (0 <= ref_count s < 4294967295 ->
   guint_wrap (ref_count s + 1) = ref_count s + 1).
Proof.
  intros Hs Hr. split.
  - by apply _gtk_shadow_resolve_resolved_eq.
  - intros Hc. unfold guint_wrap. apply Z.mod_small. lia.
Qed.

(** C6. Resolution success.  When the resolver succeeds on every element
    of an unresolved list, [_gtk_shadow_resolve] returns the list that
    [_gtk_shadow_new] constructs: an address not in use before, holding no
    element and reference count 1 when constructed.  On return it has
    reference count 1, its resolved flag set, and as many elements as the
    source; the element at each position is a new one that carries the
    resolver's color for the source element at that position, the same
    offsets, radius, spread and inset, and no symbolic color. *)
Theorem resolve_success (m : memory) a s es cs :
  shadows m !! a = Some s ->
  resolved s = false ->
  loaded (slices m) (elements s) es ->
  Forall element_in_range es ->
  Forall2 (resolves resolver props) es cs ->
  exists q m0 new m',
    _gtk_shadow_new m = Some (q, m0) /\
    shadows m !! q = None /\
    shadows m0 !! q =
      Some {| elements := []; ref_count := 1; resolved := false |} /\
    _gtk_shadow_resolve resolver (Some a) props m = Some (Some q, m') /\
    shadows m' !! q =
      Some {| elements := new; ref_count := 1; resolved := true |} /\
    length new = length es /\
    (forall i e, es !! i = Some e ->
       exists n c, new !! i = Some n /\ resolves resolver props e c /\
                   slices m !! n = None /\
                   slices m' !! n = Some (concrete_copy e c)).
Proof.
  intros Hs Hr Hl Hrange Hcs.
  eexists _, _, _, _.
  split; [apply _gtk_shadow_new_eq |].
  split; [apply fresh_slice |].
  split; [apply lookup_insert_eq |].
  split; [by eapply _gtk_shadow_resolve_ok_eq |].
  split; [apply lookup_insert_eq |].
  pose proof (Forall2_length _ _ _ Hcs) as Hlen.
  split.
  { rewrite alloc_all_length, length_zip_with. lia. }
  intros i e Hi. simpl.
  destruct (Forall2_lookup_l _ _ _ _ _ Hcs Hi) as (c & Hc & Hec).
  pose proof (alloc_all_loaded (zip_with resolved_copy es cs) (slices m)) as Hnew.
  assert (zip_with resolved_copy es cs !! i = Some (resolved_copy e c)) as Hz.
  { rewrite lookup_zip_with, Hi. simpl. by rewrite Hc. }
  destruct (Forall2_lookup_r _ _ _ _ _ Hnew Hz) as (n & Hn & Hne).
  exists n, c. repeat split; [done | done | |].
  - pose proof (alloc_all_fresh (zip_with resolved_copy es cs) (slices m)) as Hf.
    rewrite Forall_forall in Hf. apply Hf. apply list_elem_of_lookup. eauto.
  - rewrite Hne. f_equal. apply resolved_copy_in_range.
    rewrite Forall_forall in Hrange. apply Hrange.
    apply list_elem_of_lookup. eauto.
Qed.

(** C7. Resolution never mutates its source.  On a list with live
    elements [_gtk_shadow_resolve] returns, and whether it returns a list
    or NULL the source list has the same resolved flag, the same sequence
    of elements, and every element the same contents as before; when it
    fails the whole store of lists and elements is as before. *)
Theorem resolve_source_unchanged (m : memory) a s es :
  shadows m !! a = Some s ->
  loaded (slices m) (elements s) es ->
  exists r m' s',
    _gtk_shadow_resolve resolver (Some a) props m = Some (r, m') /\
    shadows m' !! a = Some s' /\
    resolved s' = resolved s /\
    elements s' = elements s /\
    loaded (slices m') (elements s) es /\
    (r = None -> shadows m' = shadows m /\ slices m' = slices m).
Proof.
  intros Hs Hl. destruct (resolved s) eqn:Hr.
  - eexists _, _, _. split; [by apply _gtk_shadow_resolve_resolved_eq |].
    simpl. split; [apply lookup_insert_eq |]. by repeat split.
  - destruct (all_resolve_or_fail es) as [[cs Hcs] | Hex].
    + eexists _, _, _. split; [by eapply _gtk_shadow_resolve_ok_eq |].
      simpl. split.
      { rewrite lookup_insert_ne; [exact Hs |].
        intros Heq. rewrite <- Heq, fresh_slice in Hs. done. }
      repeat split; [done | by apply alloc_all_loaded_old | done | done].
    + destruct (first_failure es Hex) as (pre & e & post & cs & -> & Hpre & He).
      eexists _, _, _. split; [by eapply _gtk_shadow_resolve_fail_eq |].
      simpl. by repeat split.
Qed.

End Resolve.

(** ** Text *)

Lemma concat_join_rest x xs : String.concat ", " (x :: xs) = x +:+ join_rest xs.
Proof.
  revert x. induction xs as [|y ys IH]; intros x.
  - simpl. by rewrite append_nil_r.
  - change (x +:+ ", " +:+ String.concat ", " (y :: ys)
            = x +:+ ", " +:+ y +:+ join_rest ys).
    by rewrite IH.
Qed.

Lemma gint_wrap_length (n : Z) :
  0 <= n < 4294967296 ->
  (gint_wrap (guint_wrap n) =? 0) = (n =? 0) /\
  (gint_wrap (guint_wrap n) =? 1) = (n =? 1).
Proof.
  intros Hn. unfold gint_wrap, guint_wrap. rewrite (Z.mod_small n) by lia.
  destruct (Z_lt_ge_dec n 2147483648).
  - rewrite Z.mod_small by lia. split; f_equal; lia.
  - replace ((n + 2147483648) mod 4294967296) with (n - 2147483648).
    + split; lia.
    + apply Z.mod_unique with (q := 1); lia.
Qed.

Section Text.

Variable gtk_symbolic_color_to_string : addr -> string.
Variable gdk_rgba_to_string : GdkRGBA -> string.

Local Abbreviation element_text :=
  (shadow_element_to_string gtk_symbolic_color_to_string gdk_rgba_to_string).

Lemma to_string_loop_eq l : forall es str (m : memory),
  loaded (slices m) l es ->
  to_string_loop gtk_symbolic_color_to_string gdk_rgba_to_string l str m =
    Some (str +:+ join_rest (map element_text es), m).
Proof.
  induction l as [|data next IH]; intros es str m Hl.
  - inversion Hl; subst. simpl. unfold ret. by rewrite append_nil_r.
  - inversion Hl as [|? e ? es' He Hl']; subst. simpl.
    erewrite bind_Some by (unfold load_element; by rewrite He).
    rewrite (IH es') by done. simpl. by rewrite !append_assoc.
Qed.

(** C9. Text of one element: "inset " exactly when the inset flag is set,
    then the two offsets, always, each followed by a space, then the radius
    and a space exactly when the radius is not zero, then the spread and a
    space exactly when the spread is not zero, then the color: the text of
    the symbolic color when there is one, of the concrete color otherwise.
    Each number is printed as its decimal numeral and as nothing else, so a
    negative number, a negative radius included, is printed with its minus
    sign.  An element with offsets 2 and 2, radius 0, spread 0 and no inset
    gives "2 2 " and the color text; with radius -3 it gives "2 2 -3 " and
    the color text; with inset, radius 0 and spread 5 the spread is printed
    and the radius is not. *)
Theorem shadow_element_to_string_format (e : GtkShadowElement) :
  element_text e =
    (if inset e then "inset " else "") +:+
    printf_d (hoffset e) +:+ " " +:+ printf_d (voffset e) +:+ " " +:+
    (if radius e =? 0 then "" else printf_d (radius e) +:+ " ") +:+
    (if spread e =? 0 then "" else printf_d (spread e) +:+ " ") +:+
    match symbolic_color e with
    | Some c => gtk_symbolic_color_to_string c
    | None => gdk_rgba_to_string (color e)
    end /\
  (forall z : Z,
     decimal_numeral z (printf_d z) /\
     (forall s, decimal_numeral z s -> s = printf_d z)) /\
  (forall z : Z, z < 0 -> exists digits, printf_d z = "-" +:+ digits) /\
  (forall col,
     element_text {| hoffset := 2; voffset := 2; radius := 0; spread := 0;
                     inset := false; color := col; symbolic_color := None |}
     = "2 2 " +:+ gdk_rgba_to_string col) /\
  (forall col c,
     element_text {| hoffset := 2; voffset := 2; radius := -3; spread := 0;
                     inset := false; color := col; symbolic_color := Some c |}
     = "2 2 -3 " +:+ gtk_symbolic_color_to_string c) /\
  (forall col,
     element_text {| hoffset := 0; voffset := 1; radius := 0; spread := 5;
                     inset := true; color := col; symbolic_color := None |}
     = "inset 0 1 5 " +:+ gdk_rgba_to_string col).
Proof.
  split; [| split; [| split; [| split; [| split]]]].
  - unfold shadow_element_to_string.
    destruct (inset e), (radius e =? 0), (spread e =? 0);
      rewrite ?append_assoc; reflexivity.
  - intros z. split; [apply printf_d_decimal | apply decimal_numeral_unique].
  - apply printf_d_negative.
  - reflexivity.
  - reflexivity.
  - reflexivity.
Qed.

(** C8. Text of a list: nothing (NULL, not the empty string) for a list
    without elements, otherwise the texts of the elements in list order
    with ", " between neighbours, which for a single element is that
    element's text.  The list is one whose node count fits the [guint] in
    which [g_list_length] counts. *)
Theorem to_string_join (m : memory) a s es :
  shadows m !! a = Some s ->
  loaded (slices m) (elements s) es ->
  Z.of_nat (length es) < 4294967296 ->
  _gtk_shadow_to_string gtk_symbolic_color_to_string gdk_rgba_to_string
      (Some a) m =
    Some (match es with
          | [] => None
          | _ :: _ => Some (String.concat ", " (map element_text es))
          end, m).
Proof.
  intros Hs Hl Hlen. unfold _gtk_shadow_to_string.
  erewrite bind_Some by (unfold load_shadow; by rewrite Hs).
  unfold g_list_length. rewrite (loaded_length _ _ _ Hl).
  destruct (gint_wrap_length (Z.of_nat (length es))) as [H0 H1]; [lia |].
  rewrite H0, H1. clear H0 H1.
  destruct Hl as [|data e next es' He Hl]; [reflexivity |].
  replace (Z.of_nat (length (e :: es')) =? 0) with false
    by (symmetry; apply Z.eqb_neq; simpl length; lia).
  erewrite bind_Some by (unfold load_element; by rewrite He).
  destruct Hl as [|data2 e2 next2 es2 He2 Hl].
  - reflexivity.
  - replace (Z.of_nat (length (e :: e2 :: es2)) =? 1) with false
      by (symmetry; apply Z.eqb_neq; simpl length; lia).
    erewrite bind_Some
      by (apply (to_string_loop_eq _ (e2 :: es2)); by constructor).
    unfold ret. rewrite (map_cons element_text e).
    by rewrite (concat_join_rest (element_text e)).
Qed.

End Text.

(** ** Painting *)

Lemma count_fills_paint layout es :
  count_fills (flat_map (paint_calls layout) es) = length es.
Proof. induction es as [|e es IH]; simpl; [done | by rewrite IH]. Qed.

Lemma paint_loop_eq k : forall nodes es cr layout (m : memory),
  loaded (slices m) nodes es ->
  (k <= length nodes)%nat ->
  paint_loop nodes k cr layout m =
    Some ({| cairo_has_current_point := cairo_has_current_point cr;
             cairo_calls := cairo_calls cr ++
                            flat_map (paint_calls layout) (rev (take k es)) |},
          m).
Proof.
  induction k as [|k IH]; intros nodes es cr layout m Hl Hk.
  - simpl. unfold ret. rewrite app_nil_r. by destruct cr.
  - simpl.
    destruct (lookup_lt_is_Some_2 nodes k) as [data Hdata]; [lia |].
    rewrite Hdata.
    destruct (Forall2_lookup_l _ _ _ _ _ Hl Hdata) as (e & He & Hload).
    erewrite bind_Some by (unfold load_element; by rewrite Hload).
    rewrite (IH nodes es) by (done || lia). simpl.
    rewrite (take_S_r es k e He), rev_app_distr. simpl.
    unfold gdouble_of_gint. by rewrite <- !app_assoc.
Qed.

(** C3. Paint order and bracketing.  With a list of live elements
    [e1 .. eN], [_gtk_text_shadow_paint_layout] first moves to (0, 0) when
    the context has no current point, and then makes, for [eN] first and
    [e1] last: save, relative move by the element's offsets, set source to
    the element's color, fill, relative move by the negated offsets,
    restore.  That is N fills; the store is returned as it was. *)
Theorem paint_layout_order (m : memory) a s es cr layout :
  shadows m !! a = Some s ->
  loaded (slices m) (elements s) es ->
  exists cr',
    _gtk_text_shadow_paint_layout (Some a) cr layout m = Some (cr', m) /\
    cairo_calls cr' =
      cairo_calls cr ++
      (if cairo_has_current_point cr then [] else [cairo_move_to_call 0%Q 0%Q]) ++
      flat_map (paint_calls layout) (rev es) /\
    count_fills (flat_map (paint_calls layout) (rev es)) = length es.
Proof.
  intros Hs Hl. eexists. split; [| split].
  - unfold _gtk_text_shadow_paint_layout.
    erewrite bind_Some by (unfold load_shadow; by rewrite Hs).
    by apply paint_loop_eq.
  - simpl. unfold g_list_last. rewrite (loaded_length _ _ _ Hl), firstn_all.
    destruct (cairo_has_current_point cr); simpl; [done |].
    by rewrite <- app_assoc.
  - by rewrite count_fills_paint, length_rev.
Qed.

(** ** Construction and append *)

Section Append.

Variable gtk_symbolic_color_to_string : addr -> string.
Variable gdk_rgba_to_string : GdkRGBA -> string.

Lemma element_of_stores h v r sp i col sym :
  stores_integer_parts h v r sp (element_of h v r sp i col sym).
Proof.
  unfold stores_integer_parts, element_of, gint16_of_gdouble. simpl.
  repeat split; intros Hr; by apply gint16_wrap_id.
Qed.

(** C4, as the code has it.  Every call is taken, whatever the four
    numbers are: there is no range check, [shadow_element_new] returns a
    new element and [_gtk_shadow_append] puts it last in the list.  The
    numbers are converted to [gint16], which discards the fractional part:
    each number whose integer part is a [gint16] is stored as that integer
    part, whatever the other three are.  A whole number in range, negative
    or not, is its own integer part, so it is stored unchanged; the
    element's text prints the stored numbers, each as its decimal
    numeral. *)
Theorem append_stores_integer_part (m : memory) a s h v r sp i c :
  shadows m !! a = Some s ->
  (forall col sym, exists element m' e,
     shadow_element_new h v r sp i col sym m = Some (element, m') /\
     slices m !! element = None /\
     slices m' !! element = Some e /\
     stores_integer_parts h v r sp e /\
     inset e = i /\
     color e = match col with Some x => x | None => rgba_zero end /\
     symbolic_color e = sym) /\
  (exists element m' e,
     _gtk_shadow_append (Some a) h v r sp i (Some c) m = Some (tt, m') /\
     slices m !! element = None /\
     shadows m' !! a =
       Some {| elements := elements s ++ [element];
               ref_count := ref_count s; resolved := resolved s |} /\
     slices m' !! element = Some e /\
     stores_integer_parts h v r sp e /\
     inset e = i /\
     symbolic_color e = Some c /\
     shadow_element_to_string gtk_symbolic_color_to_string gdk_rgba_to_string
         e =
       (if i then "inset " else "") +:+
       printf_d (hoffset e) +:+ " " +:+ printf_d (voffset e) +:+ " " +:+
       (if radius e =? 0 then "" else printf_d (radius e) +:+ " ") +:+
       (if spread e =? 0 then "" else printf_d (spread e) +:+ " ") +:+
       gtk_symbolic_color_to_string c) /\
  (forall z : Z, gdouble_trunc (inject_Z z) = z) /\
  (forall z : Z, decimal_numeral z (printf_d z)).
Proof.
  intros Hs. split; [| split; [| split]].
  - intros col sym. eexists _, _, _.
    split; [apply shadow_element_new_eq |].
    split; [apply fresh_slice |].
    split; [simpl; apply lookup_insert_eq |].
    split; [apply element_of_stores | done].
  - eexists _, _, _.
    split; [by apply _gtk_shadow_append_eq |].
    split; [apply fresh_slice |].
    split; [apply lookup_insert_eq |].
    split; [simpl; apply lookup_insert_eq |].
    split; [apply element_of_stores |].
    split; [done |]. split; [done |].
    unfold shadow_element_to_string, element_of. simpl.
    destruct i, (gint16_of_gdouble r =? 0), (gint16_of_gdouble sp =? 0);
      rewrite ?append_assoc; reflexivity.
  - apply gdouble_trunc_of_gint.
  - apply printf_d_decimal.
Qed.

End Append.

(** C10. Append with a NULL color, or on a NULL list, is a checked early
    return: the call comes back, the only effect is the warning of the
    failed check, and the stores of lists and of elements are untouched (no
    element is made, none is added, no flag changes). *)
Theorem append_null_is_checked_noop (m : memory) h v r sp i :
  (forall a,
     _gtk_shadow_append (Some a) h v r sp i None m =
       Some (tt, {| shadows := shadows m; slices := slices m;
                    trace := trace m ++
                      [g_return_if_fail_warning "_gtk_shadow_append"
                                                "color != NULL"] |})) /\
  (forall color,
     _gtk_shadow_append None h v r sp i color m =
       Some (tt, {| shadows := shadows m; slices := slices m;
                    trace := trace m ++
                      [g_return_if_fail_warning "_gtk_shadow_append"
                                                "shadow != NULL"] |})).
Proof. split; reflexivity. Qed.

(** ** The lists a client can build *)

Lemma loaded_foldr_delete h l es js :
  (forall x, x ∈ l -> x ∉ js) -> loaded h l es ->
  loaded (foldr delete h js) l es.
Proof.
  intros Hdisj Hl. induction Hl as [|b x l es Hb Hl IH]; constructor.
  - rewrite lookup_foldr_delete_not_elem_of; [done |]. apply Hdisj. by left.
  - apply IH. intros y Hy. apply Hdisj. by right.
Qed.

Lemma loaded_fresh_notin h l es x : loaded h l es -> h !! x = None -> x ∉ l.
Proof.
  intros Hl Hx Hin. destruct (loaded_live _ _ _ _ Hl Hin) as [y Hy].
  congruence.
Qed.

Lemma shadow_inv_empty : shadow_inv empty_memory.
Proof.
  split; simpl.
  - intros a s Ha. by rewrite lookup_empty in Ha.
  - intros a s Ha. by rewrite lookup_empty in Ha.
  - intros a b s t x _ Ha. by rewrite lookup_empty in Ha.
Qed.

(** The invariant looks at the elements and the flag of each list and at
    the elements' store, at nothing else. *)
Lemma shadow_inv_same_shape (m m' : memory) :
  slices m' = slices m ->
  (forall a s', shadows m' !! a = Some s' ->
     exists s, shadows m !! a = Some s /\
               elements s = elements s' /\ resolved s = resolved s') ->
  shadow_inv m -> shadow_inv m'.
Proof.
  intros Hsl Hshape [Hel Hnd Hdj]. split.
  - intros a s' Ha. destruct (Hshape a s' Ha) as (s & Hs & He & Hr).
    rewrite Hsl, <- He, <- Hr. eauto.
  - intros a s' Ha. destruct (Hshape a s' Ha) as (s & Hs & He & Hr).
    rewrite <- He. eauto.
  - intros a b s' t' x Hab Ha Hb.
    destruct (Hshape a s' Ha) as (s & Hs & He & Hr).
    destruct (Hshape b t' Hb) as (t & Ht & Het & Hrt).
    rewrite <- He, <- Het. eauto.
Qed.

Lemma shadow_inv_reshape (m : memory) a s s' tr :
  shadows m !! a = Some s ->
  elements s' = elements s -> resolved s' = resolved s ->
  shadow_inv m ->
  shadow_inv {| shadows := <[a := s']> (shadows m); slices := slices m;
                trace := tr |}.
Proof.
  intros Hs He Hr. apply shadow_inv_same_shape; simpl; [done |].
  intros b t Hb. destruct (decide (a = b)) as [<- | Hne].
  - rewrite lookup_insert_eq in Hb. inversion Hb; subst. eauto.
  - rewrite lookup_insert_ne in Hb by done. eauto.
Qed.

Lemma shadow_inv_trace (m : memory) tr :
  shadow_inv m ->
  shadow_inv {| shadows := shadows m; slices := slices m; trace := tr |}.
Proof. apply shadow_inv_same_shape; simpl; eauto. Qed.

Lemma shadow_inv_new (m : memory) q tr :
  shadows m !! q = None ->
  shadow_inv m ->
  shadow_inv {| shadows := <[q := {| elements := []; ref_count := 1;
                                     resolved := false |}]> (shadows m);
                slices := slices m; trace := tr |}.
Proof.
  intros Hq [Hel Hnd Hdj]. split; simpl.
  - intros a s Ha. apply lookup_insert_Some in Ha as [[<- <-] | [Hne Ha]].
    + exists []. split; constructor.
    + eauto.
  - intros a s Ha. apply lookup_insert_Some in Ha as [[<- <-] | [Hne Ha]].
    + constructor.
    + eauto.
  - intros a b s t x Hab Ha Hb Hx.
    apply lookup_insert_Some in Ha as [[<- <-] | [Hna Ha]].
    { by apply not_elem_of_nil in Hx. }
    apply lookup_insert_Some in Hb as [[<- <-] | [Hnb Hb]].
    { apply not_elem_of_nil. }
    eauto.
Qed.

Lemma shadow_inv_free (m : memory) a s tr :
  shadows m !! a = Some s ->
  shadow_inv m ->
  shadow_inv {| shadows := delete a (shadows m);
                slices := foldr delete (slices m) (elements s);
                trace := tr |}.
Proof.
  intros Hs [Hel Hnd Hdj]. split; simpl.
  - intros b t Hb. apply lookup_delete_Some in Hb as [Hne Hb].
    destruct (Hel b t Hb) as (es & Hl & Hes). exists es. split; [| done].
    apply loaded_foldr_delete; [| done]. intros x Hx.
    apply (Hdj b a t s x); [congruence | done | done | done].
  - intros b t Hb. apply lookup_delete_Some in Hb as [Hne Hb]. eauto.
  - intros b c t u x Hbc Hb Hc.
    apply lookup_delete_Some in Hb as [_ Hb].
    apply lookup_delete_Some in Hc as [_ Hc]. eauto.
Qed.

Lemma shadow_inv_append (m : memory) a s x e tr :
  shadows m !! a = Some s -> resolved s = false ->
  slices m !! x = None -> symbolic e ->
  shadow_inv m ->
  shadow_inv {| shadows := <[a := {| elements := elements s ++ [x];
                                     ref_count := ref_count s;
                                     resolved := resolved s |}]> (shadows m);
                slices := <[x := e]> (slices m); trace := tr |}.
Proof.
  intros Hs Hr Hx He [Hel Hnd Hdj].
  assert (forall b t, shadows m !! b = Some t -> x ∉ elements t) as Hfresh.
  { intros b t Hb. destruct (Hel b t Hb) as (es & Hl & _).
    by eapply loaded_fresh_notin. }
  split; simpl.
  - intros b t Hb. apply lookup_insert_Some in Hb as [[<- <-] | [Hne Hb]]; simpl.
    + destruct (Hel a s Hs) as (es & Hl & Hes). exists (es ++ [e]). split.
      * apply Forall2_app; [by apply loaded_insert_fresh |].
        constructor; [apply lookup_insert_eq | constructor].
      * apply Forall_app. split; [done |]. constructor; [| done].
        by rewrite Hr.
    + destruct (Hel b t Hb) as (es & Hl & Hes). exists es. split; [| done].
      by apply loaded_insert_fresh.
  - intros b t Hb. apply lookup_insert_Some in Hb as [[<- <-] | [Hne Hb]]; simpl.
    + apply NoDup_app. split; [eauto |]. split; [| apply NoDup_singleton].
      intros y Hy Hin. apply list_elem_of_singleton in Hin. subst y.
      by eapply Hfresh.
    + eauto.
  - intros b c t u y Hbc Hb Hc Hy.
    apply lookup_insert_Some in Hb as [[<- <-] | [Hnb Hb]];
      apply lookup_insert_Some in Hc as [[<- <-] | [Hnc Hc]]; simpl in *.
    + done.
    + apply elem_of_app in Hy as [Hy | Hy].
      * by eapply (Hdj a c).
      * apply list_elem_of_singleton in Hy. subst y. by eapply Hfresh.
    + intros Hin. apply elem_of_app in Hin as [Hin | Hin].
      * by eapply (Hdj b a).
      * apply list_elem_of_singleton in Hin. subst y. by eapply Hfresh.
    + by eapply (Hdj b c).
Qed.

Lemma shadow_inv_resolved (m : memory) q vs tr :
  shadows m !! q = None ->
  Forall concrete vs ->
  shadow_inv m ->
  shadow_inv {| shadows := <[q := {| elements := (alloc_all (slices m) vs).1;
                                     ref_count := 1; resolved := true |}]>
                             (shadows m);
                slices := (alloc_all (slices m) vs).2; trace := tr |}.
Proof.
  intros Hq Hvs [Hel Hnd Hdj].
  assert (forall b t x, shadows m !! b = Some t ->
            x ∈ (alloc_all (slices m) vs).1 -> x ∉ elements t) as Hfresh.
  { intros b t x Hb Hx. destruct (Hel b t Hb) as (es & Hl & _).
    eapply loaded_fresh_notin; [exact Hl |].
    pose proof (alloc_all_fresh vs (slices m)) as Hf.
    rewrite Forall_forall in Hf. by apply Hf. }
  split; simpl.
  - intros b t Hb. apply lookup_insert_Some in Hb as [[<- <-] | [Hne Hb]]; simpl.
    + exists vs. split; [apply alloc_all_loaded | done].
    + destruct (Hel b t Hb) as (es & Hl & Hes). exists es. split; [| done].
      by apply alloc_all_loaded_old.
  - intros b t Hb. apply lookup_insert_Some in Hb as [[<- <-] | [Hne Hb]]; simpl.
    + apply alloc_all_NoDup.
    + eauto.
  - intros b c t u y Hbc Hb Hc Hy.
    apply lookup_insert_Some in Hb as [[<- <-] | [Hnb Hb]];
      apply lookup_insert_Some in Hc as [[<- <-] | [Hnc Hc]]; simpl in *.
    + done.
    + by eapply Hfresh.
    + intros Hin. by eapply (Hfresh b t y).
    + by eapply (Hdj b c).
Qed.

Section Reachable.

Variable gtk_symbolic_color_resolve : ptr -> ptr -> option GdkRGBA.
Variable gtk_symbolic_color_to_string : addr -> string.
Variable gdk_rgba_to_string : GdkRGBA -> string.

Lemma to_string_loop_pure l : forall str (m : memory) r m',
  to_string_loop gtk_symbolic_color_to_string gdk_rgba_to_string l str m
    = Some (r, m') -> m' = m.
Proof.
  induction l as [|data next IH]; intros str m r m' H; simpl in H.
  - unfold ret in H. congruence.
  - apply bind_inv in H as (e & m1 & He & H).
    unfold load_element in He. destruct (slices m !! data); [| done].
    inversion He; subst. eauto.
Qed.

Lemma _gtk_shadow_to_string_pure shadow (m : memory) r m' :
  _gtk_shadow_to_string gtk_symbolic_color_to_string gdk_rgba_to_string
    shadow m = Some (r, m') -> m' = m.
Proof.
  unfold _gtk_shadow_to_string. destruct shadow as [a|]; [| done].
  intros H. apply bind_inv in H as (s & m1 & Hs & H).
  unfold load_shadow in Hs. destruct (shadows m !! a); [| done].
  inversion Hs; subst. clear Hs.
  destruct (_ =? 0); [unfold ret in H; congruence |].
  destruct (elements s) as [|data next]; [done |].
  apply bind_inv in H as (e & m2 & He & H).
  unfold load_element in He. destruct (slices m1 !! data); [| done].
  inversion He; subst. clear He.
  destruct (_ =? 1); [unfold ret in H; congruence |].
  apply bind_inv in H as (str & m3 & Hloop & H).
  apply to_string_loop_pure in Hloop. unfold ret in H. congruence.
Qed.

Lemma paint_loop_pure k : forall nodes cr layout (m : memory) r m',
  paint_loop nodes k cr layout m = Some (r, m') -> m' = m.
Proof.
  induction k as [|k IH]; intros nodes cr layout m r m' H; simpl in H.
  - unfold ret in H. congruence.
  - destruct (nodes !! k) as [data|]; [| done].
    apply bind_inv in H as (e & m1 & He & H).
    unfold load_element in He. destruct (slices m !! data); [| done].
    inversion He; subst. eauto.
Qed.

Lemma _gtk_text_shadow_paint_layout_pure shadow cr layout (m : memory) r m' :
  _gtk_text_shadow_paint_layout shadow cr layout m = Some (r, m') -> m' = m.
Proof.
  unfold _gtk_text_shadow_paint_layout. destruct shadow as [a|]; [| done].
  intros H. apply bind_inv in H as (s & m1 & Hs & H).
  unfold load_shadow in Hs. destruct (shadows m !! a); [| done].
  inversion Hs; subst. by apply paint_loop_pure in H.
Qed.

Lemma resolved_copies_concrete es cs :
  Forall concrete (zip_with resolved_copy es cs).
Proof.
  revert cs. induction es as [|e es IH]; intros [|c cs]; simpl;
    constructor; [done | apply IH].
Qed.

Lemma run_preserves_inv c (m m' : memory) :
  shadow_inv m -> defined c m -> run gtk_symbolic_color_resolve gtk_symbolic_color_to_string
      gdk_rgba_to_string c m = Some (tt, m') -> shadow_inv m'.
Proof.
  intros Hinv Hdef Hrun. destruct c as
    [ | shadow | shadow | shadow h v r sp i color | shadow props | shadow
      | shadow cr layout ]; simpl in Hrun.
  - (* new *)
    erewrite bind_Some in Hrun by apply _gtk_shadow_new_eq.
    inversion Hrun; subst. apply shadow_inv_new; [apply fresh_slice | done].
  - (* ref *)
    destruct shadow as [a|].
    + destruct (shadows m !! a) as [s|] eqn:Hs.
      * erewrite bind_Some in Hrun by (by apply _gtk_shadow_ref_eq).
        inversion Hrun; subst. by eapply shadow_inv_reshape.
      * unfold bind, _gtk_shadow_ref, bind, load_shadow in Hrun.
        by rewrite Hs in Hrun.
    + inversion Hrun; subst. by apply shadow_inv_trace.
  - (* unref *)
    destruct shadow as [a|].
    + destruct (shadows m !! a) as [s|] eqn:Hs.
      * destruct (Z.eq_dec (guint_wrap (ref_count s - 1)) 0) as [Hz | Hnz].
        -- destruct (inv_elements m Hinv a s Hs) as (es & Hl & _).
           erewrite _gtk_shadow_unref_last in Hrun;
             [| done | done | by eapply inv_nodup | done].
           inversion Hrun; subst. by apply shadow_inv_free.
        -- erewrite _gtk_shadow_unref_keep in Hrun by done.
           inversion Hrun; subst. by eapply shadow_inv_reshape.
      * unfold _gtk_shadow_unref, bind, load_shadow in Hrun.
        by rewrite Hs in Hrun.
    + inversion Hrun; subst. by apply shadow_inv_trace.
  - (* append *)
    destruct shadow as [a|]; [destruct color as [c|] |].
    + destruct Hdef as (s & Hs & Hr).
      erewrite _gtk_shadow_append_eq in Hrun by done.
      inversion Hrun; subst.
      apply shadow_inv_append; [done | done | apply fresh_slice | done | done].
    + inversion Hrun; subst. by apply shadow_inv_trace.
    + inversion Hrun; subst. by apply shadow_inv_trace.
  - (* resolve *)
    destruct shadow as [a|]; [| done].
    destruct (shadows m !! a) as [s|] eqn:Hs.
    + destruct (resolved s) eqn:Hr.
      * erewrite bind_Some in Hrun
          by (by apply _gtk_shadow_resolve_resolved_eq).
        inversion Hrun; subst. by eapply shadow_inv_reshape.
      * destruct (inv_elements m Hinv a s Hs) as (es & Hl & _).
        destruct (all_resolve_or_fail gtk_symbolic_color_resolve props es)
          as [[cs Hcs] | Hex].
        -- erewrite bind_Some in Hrun
             by (by eapply _gtk_shadow_resolve_ok_eq).
           inversion Hrun; subst.
           apply shadow_inv_resolved;
             [apply fresh_slice | apply resolved_copies_concrete | done].
        -- destruct (first_failure _ _ es Hex)
             as (pre & e & post & cs & -> & Hpre & He).
           erewrite bind_Some in Hrun
             by (by eapply _gtk_shadow_resolve_fail_eq).
           inversion Hrun; subst. by apply shadow_inv_trace.
    + unfold bind, _gtk_shadow_resolve, bind, load_shadow in Hrun.
      by rewrite Hs in Hrun.
  - (* to_string *)
    apply bind_inv in Hrun as (r & m1 & Hts & Hret).
    apply _gtk_shadow_to_string_pure in Hts. unfold ret in Hret.
    inversion Hret; subst. done.
  - (* paint_layout *)
    apply bind_inv in Hrun as (r & m1 & Hp & Hret).
    apply _gtk_text_shadow_paint_layout_pure in Hp. unfold ret in Hret.
    inversion Hret; subst. done.
Qed.

Lemma reachable_inv (m : memory) : reachable gtk_symbolic_color_resolve gtk_symbolic_color_to_string
    gdk_rgba_to_string m -> shadow_inv m.
Proof.
  induction 1 as [|m c m' _ IH Hdef Hrun]; [apply shadow_inv_empty |].
  by eapply run_preserves_inv.
Qed.

(** C5, as the code has it.  In every store reached from the empty one by
    calls of the interface in which append is applied to unresolved lists
    only, each list has live elements, and its flag tells what they are:
    all concrete when it is set, all symbolic when it is not.  So a list
    with the flag set never holds a symbolic element, and for a list with
    at least one element the flag is set exactly when every element is
    concrete. *)
Theorem resolved_flag_tells_elements (m : memory) a s :
  reachable gtk_symbolic_color_resolve gtk_symbolic_color_to_string
    gdk_rgba_to_string m ->
  shadows m !! a = Some s ->
  exists es,
    loaded (slices m) (elements s) es /\
    (resolved s = true -> Forall concrete es) /\
    (resolved s = false -> Forall symbolic es) /\
    (es <> [] -> (resolved s = true <-> Forall concrete es)).
Proof.
  intros Hreach Hs.
  destruct (inv_elements m (reachable_inv m Hreach) a s Hs) as (es & Hl & Hes).
  exists es. split; [done |].
  destruct (resolved s); repeat split; try done.
  intros Hconc. destruct es as [|e es]; [done |].
  apply Forall_cons in Hes as [He _]. apply Forall_cons in Hconc as [Hc _].
  unfold symbolic, concrete in *. done.
Qed.

End Reachable.

(** * The example, worked *)

Example example_element_text :
  shadow_element_to_string example_symbolic_text example_rgba_text
      (concrete_copy example_first example_red) = "2 2 red" /\
  shadow_element_to_string example_symbolic_text example_rgba_text
      example_second = "inset -1 3 -3 5 @bg" /\
  shadow_element_to_string example_symbolic_text example_rgba_text
      example_unknown = "0 1 4 @unknown".
Proof. repeat split; reflexivity. Qed.

Example example_to_string :
  _gtk_shadow_to_string example_symbolic_text example_rgba_text
      (Some 1%positive) example_memory =
    Some (Some "2 2 @fg, inset -1 3 -3 5 @bg", example_memory) /\
  _gtk_shadow_to_string example_symbolic_text example_rgba_text
      (Some 1%positive) example_new_memory =
    Some (None, example_new_memory).
Proof. split; vm_compute; reflexivity. Qed.

Example example_resolve :
  _gtk_shadow_resolve example_resolver (Some 1%positive) None
      example_failing_memory =
    Some (None,
          {| shadows := shadows example_failing_memory;
             slices := slices example_failing_memory;
             trace := [ gtk_symbolic_color_resolve_call (Some 1%positive) None;
                        gtk_symbolic_color_resolve_call (Some 2%positive) None;
                        gtk_symbolic_color_resolve_call (Some 3%positive) None ]
          |}).
Proof. vm_compute. reflexivity. Qed.

Lemma example_built_reachable :
  reachable example_resolver example_symbolic_text example_rgba_text
    example_built_memory.
Proof.
  eapply (reachable_call _ _ _ _ (call_resolve (Some 1%positive) None)).
  - eapply (reachable_call _ _ _ _
              (call_append (Some 1%positive) 2%Q 2%Q 0%Q 0%Q false
                           (Some 1%positive))).
    + eapply (reachable_call _ _ _ _ call_new);
        [apply reachable_empty | exact I | vm_compute; reflexivity].
    + eexists. split; vm_compute; reflexivity.
    + vm_compute. reflexivity.
  - exact I.
  - vm_compute. reflexivity.
Qed.

Lemma example_new_reachable :
  reachable example_resolver example_symbolic_text example_rgba_text
    example_new_memory.
Proof.
  eapply (reachable_call _ _ _ _ call_new);
    [apply reachable_empty | exact I | vm_compute; reflexivity].
Qed.

(** The flag is not a function of the elements: after [_gtk_shadow_new]
    and a resolution of the new list there are two lists without elements,
    the first unresolved and the second resolved. *)
Example empty_list_either_flag :
  exists m1 m2,
    run example_resolver example_symbolic_text example_rgba_text
        call_new empty_memory = Some (tt, m1) /\
    run example_resolver example_symbolic_text example_rgba_text
        (call_resolve (Some 1%positive) None) m1 = Some (tt, m2) /\
    shadows m2 !! 1%positive =
      Some {| elements := []; ref_count := 1; resolved := false |} /\
    shadows m2 !! 2%positive =
      Some {| elements := []; ref_count := 1; resolved := true |}.
Proof.
  eexists _, _. repeat split; vm_compute; reflexivity.
Qed.

(** Why append is defined on unresolved lists only: applied to a resolved
    list it leaves a symbolic element under a set flag. *)
Example append_after_resolve :
  exists m' s e,
    _gtk_shadow_append (Some 2%positive) 1%Q 1%Q 0%Q 0%Q false
        (Some 2%positive) example_built_memory = Some (tt, m') /\
    shadows m' !! 2%positive = Some s /\ resolved s = true /\
    elements s = [2%positive; 3%positive] /\
    slices m' !! 3%positive = Some e /\ symbolic e.
Proof.
  eexists _, _, _. split; [vm_compute; reflexivity |].
  repeat split; try (vm_compute; reflexivity). done.
Qed.

(** ** The statements above, at the example *)

Ltac lookup_now := vm_compute; reflexivity.
Ltac loaded_now := repeat (constructor; [lookup_now |]); constructor.

Lemma resolve_fail_fast_witness :
  exists pre e post,
    [example_first; example_second; example_unknown] = pre ++ e :: post /\
    Forall (fun x => ~ fails example_resolver None x) pre /\
    fails example_resolver None e /\
    _gtk_shadow_resolve example_resolver (Some 1%positive) None
        example_failing_memory =
      Some (None,
            {| shadows := shadows example_failing_memory;
               slices := slices example_failing_memory;
               trace := trace example_failing_memory ++
                        resolve_events None (pre ++ [e]) |}).
Proof.
  apply (resolve_fail_fast example_resolver None example_failing_memory
           1%positive example_failing_list).
  - lookup_now.
  - reflexivity.
  - loaded_now.
  - right. right. left. reflexivity.
Defined.

Lemma resolve_resolved_same_instance_witness :
  _gtk_shadow_resolve example_resolver (Some 1%positive) None
      example_resolved_memory =
    Some (Some 1%positive,
          {| shadows :=
               <[ 1%positive :=
                    {| elements := elements example_resolved_list;
                       ref_count :=
                         guint_wrap (ref_count example_resolved_list + 1);
                       resolved := true |} ]>
                 (shadows example_resolved_memory);
             slices := slices example_resolved_memory;
             trace := trace example_resolved_memory |}) /\
  (0 <= ref_count example_resolved_list < 4294967295 ->
   guint_wrap (ref_count example_resolved_list + 1) =
     ref_count example_resolved_list + 1).
Proof.
  apply (resolve_resolved_same_instance example_resolver None
           example_resolved_memory 1%positive example_resolved_list).
  - lookup_now.
  - reflexivity.
Defined.

Lemma resolve_success_witness :
  exists q m0 new m',
    _gtk_shadow_new example_memory = Some (q, m0) /\
    shadows example_memory !! q = None /\
    shadows m0 !! q =
      Some {| elements := []; ref_count := 1; resolved := false |} /\
    _gtk_shadow_resolve example_resolver (Some 1%positive) None example_memory
      = Some (Some q, m') /\
    shadows m' !! q =
      Some {| elements := new; ref_count := 1; resolved := true |} /\
    length new = length [example_first; example_second] /\
    (forall i e, [example_first; example_second] !! i = Some e ->
       exists n c, new !! i = Some n /\ resolves example_resolver None e c /\
                   slices example_memory !! n = None /\
                   slices m' !! n = Some (concrete_copy e c)).
Proof.
  apply (resolve_success example_resolver None example_memory 1%positive
           example_list [example_first; example_second]
           [example_red; example_grey]).
  - lookup_now.
  - reflexivity.
  - loaded_now.
  - repeat constructor; vm_compute; discriminate.
  - repeat constructor.
Defined.

Lemma resolve_source_unchanged_witness :
  exists r m' s',
    _gtk_shadow_resolve example_resolver (Some 1%positive) None example_memory
      = Some (r, m') /\
    shadows m' !! 1%positive = Some s' /\
    resolved s' = resolved example_list /\
    elements s' = elements example_list /\
    loaded (slices m') (elements example_list)
           [example_first; example_second] /\
    (r = None -> shadows m' = shadows example_memory /\
                 slices m' = slices example_memory).
Proof.
  apply (resolve_source_unchanged example_resolver None example_memory
           1%positive example_list [example_first; example_second]).
  - lookup_now.
  - loaded_now.
Defined.

Lemma to_string_join_witness :
  _gtk_shadow_to_string example_symbolic_text example_rgba_text
      (Some 1%positive) example_memory =
    Some (Some (String.concat ", "
                  (map (shadow_element_to_string example_symbolic_text
                                                 example_rgba_text)
                       [example_first; example_second])),
          example_memory).
Proof.
  apply (to_string_join example_symbolic_text example_rgba_text example_memory
           1%positive example_list [example_first; example_second]).
  - lookup_now.
  - loaded_now.
  - simpl. lia.
Defined.

Lemma paint_layout_order_witness :
  exists cr',
    _gtk_text_shadow_paint_layout (Some 1%positive) example_context None
        example_resolved_memory = Some (cr', example_resolved_memory) /\
    cairo_calls cr' =
      cairo_calls example_context ++
      (if cairo_has_current_point example_context then []
       else [cairo_move_to_call 0%Q 0%Q]) ++
      flat_map (paint_calls None)
        (rev [concrete_copy example_first example_red;
              concrete_copy example_second example_grey]) /\
    count_fills
      (flat_map (paint_calls None)
         (rev [concrete_copy example_first example_red;
               concrete_copy example_second example_grey])) =
    length [concrete_copy example_first example_red;
            concrete_copy example_second example_grey].
Proof.
  apply (paint_layout_order example_resolved_memory 1%positive
           example_resolved_list).
  - lookup_now.
  - loaded_now.
Defined.

Lemma append_stores_integer_part_witness :
  (forall col sym, exists element m' e,
     shadow_element_new 2%Q (5 # 2)%Q (-3)%Q 100000%Q false col sym
         example_memory = Some (element, m') /\
     slices example_memory !! element = None /\
     slices m' !! element = Some e /\
     stores_integer_parts 2%Q (5 # 2)%Q (-3)%Q 100000%Q e /\
     inset e = false /\
     color e = match col with Some x => x | None => rgba_zero end /\
     symbolic_color e = sym) /\
  (exists element m' e,
     _gtk_shadow_append (Some 1%positive) 2%Q (5 # 2)%Q (-3)%Q 100000%Q false
         (Some 2%positive) example_memory = Some (tt, m') /\
     slices example_memory !! element = None /\
     shadows m' !! 1%positive =
       Some {| elements := elements example_list ++ [element];
               ref_count := ref_count example_list;
               resolved := resolved example_list |} /\
     slices m' !! element = Some e /\
     stores_integer_parts 2%Q (5 # 2)%Q (-3)%Q 100000%Q e /\
     inset e = false /\
     symbolic_color e = Some 2%positive /\
     shadow_element_to_string example_symbolic_text example_rgba_text e =
       "" +:+
       printf_d (hoffset e) +:+ " " +:+ printf_d (voffset e) +:+ " " +:+
       (if radius e =? 0 then "" else printf_d (radius e) +:+ " ") +:+
       (if spread e =? 0 then "" else printf_d (spread e) +:+ " ") +:+
       example_symbolic_text 2%positive) /\
  (forall z : Z, gdouble_trunc (inject_Z z) = z) /\
  (forall z : Z, decimal_numeral z (printf_d z)).
Proof.
  apply (append_stores_integer_part example_symbolic_text example_rgba_text
           example_memory 1%positive example_list).
  lookup_now.
Defined.

Lemma resolved_flag_tells_elements_witness :
  exists es,
    loaded (slices example_built_memory) [2%positive] es /\
    (true = true -> Forall concrete es) /\
    (true = false -> Forall symbolic es) /\
    (es <> [] -> (true = true <-> Forall concrete es)).
Proof.
  apply (resolved_flag_tells_elements example_resolver example_symbolic_text
           example_rgba_text example_built_memory 2%positive
           {| elements := [2%positive]; ref_count := 1; resolved := true |}).
  - exact example_built_reachable.
  - lookup_now.
Defined.

(** * Where the code differs *)

(** C4 as stated fails on a fractional offset: 2.5 is stored as 2 and
    printed as 2. *)
Lemma fractional_offset_is_truncated :
  exists element m' e,
    shadow_element_new (5 # 2)%Q 0%Q 0%Q 0%Q false None (Some 1%positive)
        empty_memory = Some (element, m') /\
    slices m' !! element = Some e /\
    hoffset e = 2 /\
    ~ (inject_Z (hoffset e) == 5 # 2)%Q /\
    shadow_element_to_string example_symbolic_text example_rgba_text e
      = "2 0 @fg".
Proof.
  eexists _, _, _. split; [apply shadow_element_new_eq |].
  split; [simpl; apply lookup_insert_eq |].
  split; [reflexivity |].
  split; [vm_compute; discriminate | reflexivity].
Qed.

(** C5 as stated fails on a list just made: it has no element, so every
    one of its elements is concrete, and its flag is not set. *)
Lemma new_list_flag_is_not_iff :
  ~ (forall (m : memory) a s es,
       reachable example_resolver example_symbolic_text example_rgba_text m ->
       shadows m !! a = Some s ->
       loaded (slices m) (elements s) es ->
       (resolved s = true <-> Forall concrete es)).
Proof.
  intros H.
  destruct (H example_new_memory 1%positive
              {| elements := []; ref_count := 1; resolved := false |} []
              example_new_reachable) as [_ Hflag].
  - lookup_now.
  - constructor.
  - discriminate (Hflag (List.Forall_nil concrete)).
Qed.

(** * Further properties *)

(** ** Reference counting *)

Lemma guint_ref_unref (n : Z) :
  0 < n < 4294967296 ->
  guint_wrap (guint_wrap (n + 1) - 1) = n.
Proof.
  intros Hn. unfold guint_wrap.
  destruct (Z.eq_dec n 4294967295) as [-> | Hne]; [reflexivity |].
  rewrite (Z.mod_small (n + 1)) by lia.
  replace (n + 1 - 1) with n by lia. apply Z.mod_small. lia.
Qed.

Lemma memory_eta (m : memory) :
  {| shadows := shadows m; slices := slices m; trace := trace m |} = m.
Proof. by destruct m. Qed.

Lemma shadow_eta (s : GtkShadow) :
  {| elements := elements s; ref_count := ref_count s;
     resolved := resolved s |} = s.
Proof. by destruct s. Qed.

(** X1. A reference taken and given back leaves the store exactly as it
    was, for every count from 1 up to the top of the [guint] range. *)
Theorem ref_then_unref (m : memory) a s :
  shadows m !! a = Some s ->
  0 < ref_count s < 4294967296 ->
  exists m1,
    _gtk_shadow_ref (Some a) m = Some (Some a, m1) /\
    _gtk_shadow_unref (Some a) m1 = Some (tt, m).
Proof.
  intros Hs Hc. eexists. split; [by apply _gtk_shadow_ref_eq |].
  erewrite _gtk_shadow_unref_keep;
    [| simpl; apply lookup_insert_eq
     | simpl; rewrite guint_ref_unref by done; lia ].
  simpl. rewrite guint_ref_unref by done.
  rewrite insert_insert_eq, shadow_eta, insert_id by done.
  by rewrite memory_eta.
Qed.

(** X2. The life of a list: made with count 1, referenced to 2, the first
    unref brings it back to the store it was made in, where it is still
    live, and the second unref destroys it, bringing back the store from
    before it was made. *)
Theorem new_ref_unref_unref (m : memory) :
  exists q m1 m2,
    _gtk_shadow_new m = Some (q, m1) /\
    shadows m !! q = None /\
    shadows m1 !! q =
      Some {| elements := []; ref_count := 1; resolved := false |} /\
    _gtk_shadow_ref (Some q) m1 = Some (Some q, m2) /\
    shadows m2 !! q =
      Some {| elements := []; ref_count := 2; resolved := false |} /\
    _gtk_shadow_unref (Some q) m2 = Some (tt, m1) /\
    _gtk_shadow_unref (Some q) m1 = Some (tt, m).
Proof.
  eexists _, _, _.
  split; [apply _gtk_shadow_new_eq |].
  split; [apply fresh_slice |].
  split; [apply lookup_insert_eq |].
  split; [apply _gtk_shadow_ref_eq, lookup_insert_eq |].
  split; [apply lookup_insert_eq |].
  split.
  - erewrite _gtk_shadow_unref_keep;
      [| simpl; apply lookup_insert_eq | simpl; vm_compute; discriminate ].
    simpl. rewrite !insert_insert_eq. reflexivity.
  - erewrite (_gtk_shadow_unref_last _ _ []);
      [| simpl; apply lookup_insert_eq | reflexivity | constructor
       | constructor ].
    simpl. rewrite delete_insert_eq, (delete_id _ _ (fresh_slice (shadows m))).
    by rewrite app_nil_r, memory_eta.
Qed.

(** ** A list built and released *)

Lemma append_layers_eq ls : forall (m : memory) a s,
  shadows m !! a = Some s ->
  append_layers (Some a) ls m =
    Some (tt,
          {| shadows :=
               <[a := {| elements :=
                           elements s ++
                           (alloc_all (slices m) (map layer_element ls)).1;
                         ref_count := ref_count s;
                         resolved := resolved s |}]> (shadows m);
             slices := (alloc_all (slices m) (map layer_element ls)).2;
             trace := trace m ++
                      map (fun l => gtk_symbolic_color_ref_call (layer_color l))
                          ls |}).
Proof.
  induction ls as [|l ls IH]; intros m a s Hs.
  - simpl. unfold ret. rewrite !app_nil_r, shadow_eta, insert_id by done.
    by rewrite memory_eta.
  - simpl. erewrite bind_Some by (by apply _gtk_shadow_append_eq).
    erewrite IH by (simpl; apply lookup_insert_eq).
    simpl. by rewrite insert_insert_eq, <- !app_assoc.
Qed.

Lemma alloc_all_release vs : forall h,
  foldr delete (alloc_all h vs).2 (alloc_all h vs).1 = h.
Proof.
  induction vs as [|v vs IH]; intros h; simpl; [done |].
  by rewrite IH, delete_insert_eq, (delete_id _ _ (fresh_slice h)).
Qed.

Lemma unref_events_layers ls :
  concat (map unref_events (map layer_element ls)) =
    map (fun l => gtk_symbolic_color_unref_call (layer_color l)) ls.
Proof. induction ls as [|l ls IH]; simpl; [done | by rewrite IH]. Qed.

(** X3. A list that is made, given any run of layers and released: the
    stores of lists and of elements end up as they were before the list was
    made, and every symbolic color has been referenced once per layer that
    names it and unreferenced as often, both in the order of the layers. *)
Theorem build_and_release (m : memory) (ls : list layer) :
  exists q m1 m2,
    _gtk_shadow_new m = Some (q, m1) /\
    append_layers (Some q) ls m1 = Some (tt, m2) /\
    _gtk_shadow_unref (Some q) m2 =
      Some (tt,
            {| shadows := shadows m; slices := slices m;
               trace := trace m ++
                 map (fun l => gtk_symbolic_color_ref_call (layer_color l)) ls ++
                 map (fun l => gtk_symbolic_color_unref_call (layer_color l)) ls
            |}).
Proof.
  eexists _, _, _.
  split; [apply _gtk_shadow_new_eq |].
  split; [apply append_layers_eq; simpl; apply lookup_insert_eq |].
  erewrite (_gtk_shadow_unref_last _ _ (map layer_element ls));
    [| simpl; apply lookup_insert_eq | reflexivity
     | simpl; apply alloc_all_NoDup | simpl; apply alloc_all_loaded ].
  simpl. rewrite alloc_all_release, unref_events_layers.
  rewrite delete_insert_eq, delete_insert_eq.
  rewrite (delete_id _ _ (fresh_slice (shadows m))).
  by rewrite <- app_assoc.
Qed.

(** ** Text of lists that were appended to or resolved *)

Lemma join_rest_app xs y :
  join_rest (xs ++ [y]) = join_rest xs +:+ ", " +:+ y.
Proof.
  induction xs as [|x xs IH].
  - simpl. by rewrite append_nil_r.
  - change (", " +:+ x +:+ join_rest (xs ++ [y])
            = (", " +:+ x +:+ join_rest xs) +:+ ", " +:+ y).
    by rewrite IH, !append_assoc.
Qed.

Lemma concat_snoc x xs y :
  String.concat ", " ((x :: xs) ++ [y]) =
    String.concat ", " (x :: xs) +:+ ", " +:+ y.
Proof.
  change ((x :: xs) ++ [y]) with (x :: (xs ++ [y])).
  by rewrite !concat_join_rest, join_rest_app, append_assoc.
Qed.

Lemma length_append (a b : string) :
  String.length (a +:+ b) = (String.length a + String.length b)%nat.
Proof.
  induction a as [|x a IH]; [reflexivity |].
  change (S (String.length (a +:+ b)) = S (String.length a + String.length b)).
  by rewrite IH.
Qed.

Section TextMore.

Variable resolver : ptr -> ptr -> option GdkRGBA.
Variable gtk_symbolic_color_to_string : addr -> string.
Variable gdk_rgba_to_string : GdkRGBA -> string.

Local Abbreviation element_text :=
  (shadow_element_to_string gtk_symbolic_color_to_string gdk_rgba_to_string).
Local Abbreviation list_text :=
  (_gtk_shadow_to_string gtk_symbolic_color_to_string gdk_rgba_to_string).

Lemma _gtk_shadow_to_string_eq (m : memory) a s es :
  shadows m !! a = Some s ->
  loaded (slices m) (elements s) es ->
  Z.of_nat (length es) < 4294967296 ->
  list_text (Some a) m =
    Some (match es with
          | [] => None
          | _ :: _ => Some (String.concat ", " (map element_text es))
          end, m).
Proof.
  intros Hs Hl Hlen. unfold _gtk_shadow_to_string.
  erewrite bind_Some by (unfold load_shadow; by rewrite Hs).
  unfold g_list_length. rewrite (loaded_length _ _ _ Hl).
  destruct (gint_wrap_length (Z.of_nat (length es))) as [H0 H1]; [lia |].
  rewrite H0, H1. clear H0 H1.
  destruct Hl as [|data e next es' He Hl]; [reflexivity |].
  replace (Z.of_nat (length (e :: es')) =? 0) with false
    by (symmetry; apply Z.eqb_neq; simpl length; lia).
  erewrite bind_Some by (unfold load_element; by rewrite He).
  destruct Hl as [|data2 e2 next2 es2 He2 Hl]; [reflexivity |].
  replace (Z.of_nat (length (e :: e2 :: es2)) =? 1) with false
    by (symmetry; apply Z.eqb_neq; simpl length; lia).
  erewrite bind_Some
    by (apply (to_string_loop_eq _ _ _ (e2 :: es2)); by constructor).
  unfold ret. rewrite (map_cons element_text e).
  by rewrite (concat_join_rest (element_text e)).
Qed.

Lemma element_text_length e : (2 <= String.length (element_text e))%nat.
Proof.
  unfold shadow_element_to_string.
  destruct (spread e =? 0), (radius e =? 0); rewrite !length_append;
    change (String.length " ") with 1%nat; lia.
Qed.

(** X4. Append and text compose: after an append, the text of the list is
    the text it had before, then ", ", then the text of the element the
    append stored; for a list that had no element (and no text) it is the
    text of that element alone.  The stored element has the inset flag and
    the symbolic color of the call, and each number of the call whose
    integer part is a [gint16] as that integer part.  The list stays below
    2^32 nodes. *)
Theorem append_then_to_string (m : memory) a s es h v r sp i c :
  shadows m !! a = Some s ->
  loaded (slices m) (elements s) es ->
  Z.of_nat (length es) + 1 < 4294967296 ->
  exists old m' x e,
    list_text (Some a) m = Some (old, m) /\
    _gtk_shadow_append (Some a) h v r sp i (Some c) m = Some (tt, m') /\
    shadows m' !! a =
      Some {| elements := elements s ++ [x]; ref_count := ref_count s;
              resolved := resolved s |} /\
    slices m' !! x = Some e /\
    stores_integer_parts h v r sp e /\
    inset e = i /\
    symbolic_color e = Some c /\
    list_text (Some a) m' =
      Some (Some (match old with
                  | None => element_text e
                  | Some text => text +:+ ", " +:+ element_text e
                  end), m').
Proof.
  intros Hs Hl Hlen. eexists _, _, _, _.
  split; [eapply _gtk_shadow_to_string_eq; [done | done | lia] |].
  split; [by apply _gtk_shadow_append_eq |].
  split; [simpl; apply lookup_insert_eq |].
  split; [simpl; apply lookup_insert_eq |].
  split; [apply element_of_stores |].
  split; [done |]. split; [done |].
  erewrite (_gtk_shadow_to_string_eq _ a _
              (es ++ [element_of h v r sp i None (Some c)])).
  - destruct es as [|e es]; [reflexivity |].
    rewrite map_app. simpl map.
    by rewrite (concat_snoc (element_text e)).
  - simpl. apply lookup_insert_eq.
  - simpl. apply Forall2_app.
    + apply loaded_insert_fresh; [apply fresh_slice | done].
    + constructor; [apply lookup_insert_eq | constructor].
  - rewrite length_app. simpl length. lia.
Qed.

(** X5. Resolution and text compose: the text of the list a successful
    resolution returns is the text of the source's layers with each
    symbolic color replaced by the color the resolver gave for it. *)
Theorem resolve_then_to_string (m : memory) a s es cs props :
  shadows m !! a = Some s ->
  resolved s = false ->
  loaded (slices m) (elements s) es ->
  Forall element_in_range es ->
  Forall2 (resolves resolver props) es cs ->
  Z.of_nat (length es) < 4294967296 ->
  exists q m',
    _gtk_shadow_resolve resolver (Some a) props m = Some (Some q, m') /\
    list_text (Some q) m' =
      Some (match es with
            | [] => None
            | _ :: _ =>
                Some (String.concat ", "
                        (map element_text (zip_with concrete_copy es cs)))
            end, m').
Proof.
  intros Hs Hr Hl Hrange Hcs Hlen. eexists _, _.
  split; [by eapply _gtk_shadow_resolve_ok_eq |].
  assert (zip_with resolved_copy es cs = zip_with concrete_copy es cs) as Hz.
  { clear Hl Hlen. induction Hcs as [|e c es cs _ _ IH]; [done |].
    apply Forall_cons in Hrange as [He Hrange]. simpl.
    by rewrite IH, resolved_copy_in_range. }
  pose proof (Forall2_length _ _ _ Hcs) as Hlen2.
  erewrite (_gtk_shadow_to_string_eq _ _ _ (zip_with concrete_copy es cs)).
  - destruct Hcs; reflexivity.
  - simpl. apply lookup_insert_eq.
  - simpl. rewrite <- Hz. apply alloc_all_loaded.
  - rewrite length_zip_with. lia.
Qed.

(** X6. The text of a list is never the empty string: whenever
    [_gtk_shadow_to_string] returns a text, it has at least two
    characters. *)
Theorem to_string_never_empty (m : memory) shadow text m' :
  list_text shadow m = Some (Some text, m') ->
  (2 <= String.length text)%nat.
Proof.
  unfold _gtk_shadow_to_string. destruct shadow as [a|]; [| done].
  intros H. apply bind_inv in H as (s & m1 & Hs & H).
  destruct (_ =? 0); [unfold ret in H; congruence |].
  destruct (elements s) as [|data next]; [done |].
  apply bind_inv in H as (e & m2 & He & H).
  destruct (_ =? 1).
  - unfold ret in H. inversion H; subst. apply element_text_length.
  - apply bind_inv in H as (str & m3 & Hloop & H).
    unfold ret in H. inversion H; subst. clear H.
    unfold load_element in He. destruct (slices m1 !! data); [| done].
    inversion He; subst. clear He.
    assert (forall l str0 m0 r m4,
              to_string_loop gtk_symbolic_color_to_string gdk_rgba_to_string
                l str0 m0 = Some (r, m4) ->
              (String.length str0 <= String.length r)%nat) as Hgrow.
    { induction l as [|d l IH]; intros str0 m0 r m4 Hr; simpl in Hr.
      - unfold ret in Hr. inversion Hr; subst. lia.
      - apply bind_inv in Hr as (e' & m5 & _ & Hr).
        apply IH in Hr. rewrite !length_append in Hr. lia. }
    apply Hgrow in Hloop.
    pose proof (element_text_length e) as He2.
    change ("" +:+ element_text e) with (element_text e) in Hloop. lia.
Qed.

End TextMore.

(** ** More on resolution *)

Lemma _gtk_shadow_get_resolved_eq a s (m : memory) :
  shadows m !! a = Some s ->
  _gtk_shadow_get_resolved (Some a) m = Some (resolved s, m).
Proof.
  intros Hs. unfold _gtk_shadow_get_resolved, bind, load_shadow, ret.
  by rewrite Hs.
Qed.

Lemma _gtk_text_shadow_paint_layout_eq (m : memory) a s es cr layout :
  shadows m !! a = Some s ->
  loaded (slices m) (elements s) es ->
  exists cr',
    _gtk_text_shadow_paint_layout (Some a) cr layout m = Some (cr', m) /\
    cairo_calls cr' =
      cairo_calls cr ++
      (if cairo_has_current_point cr then []
       else [cairo_move_to_call 0%Q 0%Q]) ++
      flat_map (paint_calls layout) (rev es).
Proof.
  intros Hs Hl. eexists. split.
  - unfold _gtk_text_shadow_paint_layout.
    erewrite bind_Some by (unfold load_shadow; by rewrite Hs).
    by apply paint_loop_eq.
  - simpl. unfold g_list_last. rewrite (loaded_length _ _ _ Hl), firstn_all.
    destruct (cairo_has_current_point cr); simpl; [done |].
    by rewrite <- app_assoc.
Qed.

Lemma same_paint_calls layout es es' :
  Forall2 same_paint es es' ->
  flat_map (paint_calls layout) (rev es) =
    flat_map (paint_calls layout) (rev es').
Proof.
  intros H. rewrite !flat_map_concat_map, !map_rev. f_equal. f_equal.
  induction H as [|e e' es es' (Hh & Hv & Hc) _ IH]; [done |].
  simpl. rewrite IH. f_equal. unfold paint_calls. by rewrite Hh, Hv, Hc.
Qed.

Section ResolveMore.

Variable resolver : ptr -> ptr -> option GdkRGBA.
Variable props : ptr.

(** X7. A list without elements always resolves: whatever the resolver,
    the result is a new list without elements, count 1 and flag set; the
    resolver is not called and the source stays as it is. *)
Theorem resolve_empty (m : memory) a s :
  shadows m !! a = Some s ->
  resolved s = false ->
  elements s = [] ->
  exists q,
    shadows m !! q = None /\
    _gtk_shadow_resolve resolver (Some a) props m =
      Some (Some q,
            {| shadows := <[q := {| elements := []; ref_count := 1;
                                    resolved := true |}]> (shadows m);
               slices := slices m; trace := trace m |}).
Proof.
  intros Hs Hr He. eexists. split; [apply fresh_slice |].
  erewrite (_gtk_shadow_resolve_ok_eq _ _ _ _ [] []);
    [| done | done | rewrite He; constructor | constructor ].
  simpl. by rewrite app_nil_r.
Qed.

(** X8. What resolution asks of the outside: on an unresolved list, the
    only calls that leave the file are calls to the resolver, one for each
    element of an initial run of the list, in list order; when a list is
    returned the run is the whole list.  No symbolic color is referenced
    or unreferenced. *)
Theorem resolve_outside_calls (m : memory) a s es :
  shadows m !! a = Some s ->
  resolved s = false ->
  loaded (slices m) (elements s) es ->
  exists r m' called rest,
    _gtk_shadow_resolve resolver (Some a) props m = Some (r, m') /\
    es = called ++ rest /\
    trace m' = trace m ++ resolve_events props called /\
    (r <> None -> rest = []).
Proof.
  intros Hs Hr Hl.
  destruct (all_resolve_or_fail resolver props es) as [[cs Hcs] | Hex].
  - exists (Some (fresh (dom (shadows m)))). eexists _, es, [].
    split; [by eapply _gtk_shadow_resolve_ok_eq |].
    by rewrite app_nil_r.
  - destruct (first_failure _ _ es Hex) as (pre & e & post & cs & -> & Hpre & He).
    exists None. eexists _, (pre ++ [e]), post.
    split; [by eapply _gtk_shadow_resolve_fail_eq |].
    split; [by rewrite <- app_assoc |]. split; [done | done].
Qed.

(** X9. The list a successful resolution returns is owned by the caller
    alone: unreferencing it once destroys it together with the elements
    made for it, which brings back the stores from before the resolution
    and releases no symbolic color. *)
Theorem resolve_then_unref (m : memory) a s es cs :
  shadows m !! a = Some s ->
  resolved s = false ->
  loaded (slices m) (elements s) es ->
  Forall2 (resolves resolver props) es cs ->
  exists q m',
    _gtk_shadow_resolve resolver (Some a) props m = Some (Some q, m') /\
    _gtk_shadow_unref (Some q) m' =
      Some (tt, {| shadows := shadows m; slices := slices m;
                   trace := trace m ++ resolve_events props es |}).
Proof.
  intros Hs Hr Hl Hcs. eexists _, _.
  split; [by eapply _gtk_shadow_resolve_ok_eq |].
  erewrite (_gtk_shadow_unref_last _ _ (zip_with resolved_copy es cs));
    [| simpl; apply lookup_insert_eq | reflexivity
     | simpl; apply alloc_all_NoDup | simpl; apply alloc_all_loaded ].
  simpl. rewrite alloc_all_release, delete_insert_eq.
  rewrite (delete_id _ _ (fresh_slice (shadows m))).
  rewrite unref_events_concrete, app_nil_r; [done |].
  clear. revert cs. induction es as [|e es IH]; intros [|c cs]; simpl;
    constructor; [done | apply IH].
Qed.

(** X10. Resolving the result of a resolution again returns that same
    list with count 2, and touches neither the elements nor the trace. *)
Theorem resolve_twice (m : memory) a s es cs :
  shadows m !! a = Some s ->
  resolved s = false ->
  loaded (slices m) (elements s) es ->
  Forall2 (resolves resolver props) es cs ->
  exists q new m1 m2,
    _gtk_shadow_resolve resolver (Some a) props m = Some (Some q, m1) /\
    shadows m1 !! q =
      Some {| elements := new; ref_count := 1; resolved := true |} /\
    _gtk_shadow_resolve resolver (Some q) props m1 = Some (Some q, m2) /\
    shadows m2 !! q =
      Some {| elements := new; ref_count := 2; resolved := true |} /\
    slices m2 = slices m1 /\ trace m2 = trace m1.
Proof.
  intros Hs Hr Hl Hcs. eexists _, _, _, _.
  split; [by eapply _gtk_shadow_resolve_ok_eq |].
  split; [simpl; apply lookup_insert_eq |].
  split; [apply _gtk_shadow_resolve_resolved_eq;
          [simpl; apply lookup_insert_eq | reflexivity] |].
  simpl. split; [apply lookup_insert_eq | done].
Qed.

(** X11. [_gtk_shadow_get_resolved] reads the flag and changes nothing,
    and around a successful resolution it answers FALSE for the source,
    before and after, and TRUE for the list returned. *)
Theorem get_resolved_around_resolve (m : memory) a s es cs :
  shadows m !! a = Some s ->
  resolved s = false ->
  loaded (slices m) (elements s) es ->
  Forall2 (resolves resolver props) es cs ->
  exists q m',
    _gtk_shadow_get_resolved (Some a) m = Some (false, m) /\
    _gtk_shadow_resolve resolver (Some a) props m = Some (Some q, m') /\
    _gtk_shadow_get_resolved (Some a) m' = Some (false, m') /\
    _gtk_shadow_get_resolved (Some q) m' = Some (true, m').
Proof.
  intros Hs Hr Hl Hcs. eexists _, _.
  split; [rewrite <- Hr; by apply _gtk_shadow_get_resolved_eq |].
  split; [by eapply _gtk_shadow_resolve_ok_eq |].
  split.
  - rewrite <- Hr. apply _gtk_shadow_get_resolved_eq. simpl.
    rewrite lookup_insert_ne; [done |].
    intros Heq. rewrite <- Heq, fresh_slice in Hs. done.
  - erewrite _gtk_shadow_get_resolved_eq by (simpl; apply lookup_insert_eq).
    reflexivity.
Qed.

(** X12. Resolution and painting compose: painting the list a successful
    resolution returns fills once per layer of the source, last layer
    first, each at the source layer's offsets and in the color the resolver
    gave for that layer, and leaves the store as resolution left it. *)
Theorem resolve_then_paint (m : memory) a s es cs cr layout :
  shadows m !! a = Some s ->
  resolved s = false ->
  loaded (slices m) (elements s) es ->
  Forall element_in_range es ->
  Forall2 (resolves resolver props) es cs ->
  exists q m' cr',
    _gtk_shadow_resolve resolver (Some a) props m = Some (Some q, m') /\
    _gtk_text_shadow_paint_layout (Some q) cr layout m' = Some (cr', m') /\
    cairo_calls cr' =
      cairo_calls cr ++
      (if cairo_has_current_point cr then []
       else [cairo_move_to_call 0%Q 0%Q]) ++
      flat_map (paint_calls layout) (rev (zip_with concrete_copy es cs)).
Proof.
  intros Hs Hr Hl Hrange Hcs.
  assert (zip_with resolved_copy es cs = zip_with concrete_copy es cs) as Hz.
  { clear Hl. induction Hcs as [|e c es cs _ _ IH]; [done |].
    apply Forall_cons in Hrange as [He Hrange]. simpl.
    by rewrite IH, resolved_copy_in_range. }
  edestruct (_gtk_text_shadow_paint_layout_eq
               {| shadows := <[fresh (dom (shadows m)) :=
                     {| elements :=
                          (alloc_all (slices m)
                             (zip_with resolved_copy es cs)).1;
                        ref_count := 1; resolved := true |}]> (shadows m);
                  slices := (alloc_all (slices m)
                               (zip_with resolved_copy es cs)).2;
                  trace := trace m ++ resolve_events props es |}
               (fresh (dom (shadows m)))
               {| elements :=
                    (alloc_all (slices m) (zip_with resolved_copy es cs)).1;
                  ref_count := 1; resolved := true |}
               (zip_with resolved_copy es cs) cr layout)
    as (cr' & Hpaint & Hcalls).
  { simpl. apply lookup_insert_eq. }
  { simpl. apply alloc_all_loaded. }
  eexists _, _, cr'.
  split; [by eapply _gtk_shadow_resolve_ok_eq |].
  split; [exact Hpaint |]. by rewrite <- Hz.
Qed.

End ResolveMore.

(** ** More on painting and append *)

(** X13. The painter looks at the offsets and the color of an element and
    at nothing else: two lists whose elements agree on those, position by
    position, are painted with exactly the same calls, whatever their
    radius, spread, inset flag and symbolic color. *)
Theorem paint_ignores_radius_spread_inset (m : memory) a b s t es es' cr layout :
  shadows m !! a = Some s ->
  shadows m !! b = Some t ->
  loaded (slices m) (elements s) es ->
  loaded (slices m) (elements t) es' ->
  Forall2 same_paint es es' ->
  exists cr',
    _gtk_text_shadow_paint_layout (Some a) cr layout m = Some (cr', m) /\
    _gtk_text_shadow_paint_layout (Some b) cr layout m = Some (cr', m).
Proof.
  intros Hs Ht Hl Hl' Hsame.
  unfold _gtk_text_shadow_paint_layout.
  erewrite !bind_Some by (unfold load_shadow; by rewrite ?Hs, ?Ht).
  erewrite !paint_loop_eq by (done || reflexivity).
  unfold g_list_last.
  rewrite (loaded_length _ _ _ Hl), (loaded_length _ _ _ Hl'), !firstn_all.
  rewrite (same_paint_calls layout es es' Hsame). eauto.
Qed.

Section AppendMore.

Variable resolver : ptr -> ptr -> option GdkRGBA.
Variable props : ptr.

(** X14. Append does not look at the resolved flag.  On a resolved list
    it goes through like on any other: the flag stays set, the new last
    element is symbolic, and a later resolution hands the list back as it
    is, without asking the resolver about the new element. *)
Theorem append_is_not_gated (m : memory) a s h v r sp i c :
  shadows m !! a = Some s ->
  resolved s = true ->
  exists x e m' m'',
    _gtk_shadow_append (Some a) h v r sp i (Some c) m = Some (tt, m') /\
    shadows m' !! a =
      Some {| elements := elements s ++ [x]; ref_count := ref_count s;
              resolved := true |} /\
    slices m' !! x = Some e /\ symbolic e /\
    _gtk_shadow_resolve resolver (Some a) props m' = Some (Some a, m'') /\
    trace m'' = trace m'.
Proof.
  intros Hs Hr. eexists _, _, _, _.
  split; [by apply _gtk_shadow_append_eq |].
  split; [simpl; rewrite Hr; apply lookup_insert_eq |].
  split; [simpl; apply lookup_insert_eq |].
  split; [done |].
  split; [apply _gtk_shadow_resolve_resolved_eq;
          [simpl; apply lookup_insert_eq | done] |].
  reflexivity.
Qed.

End AppendMore.

(** NULL handles.  [_gtk_shadow_ref] and [_gtk_shadow_unref] check
    their argument: on NULL they log the failed check, change nothing else
    and return (NULL, for ref).  [_gtk_shadow_get_resolved],
    [_gtk_shadow_resolve], [_gtk_shadow_to_string] and
    [_gtk_text_shadow_paint_layout] do not check: on NULL they read through
    the pointer, which has no defined behaviour. *)
Lemma null_handles (m : memory) resolver to_text rgba_text props cr layout :
  _gtk_shadow_ref None m =
    Some (None, {| shadows := shadows m; slices := slices m;
                   trace := trace m ++
                     [g_return_if_fail_warning "_gtk_shadow_ref"
                                               "shadow != NULL"] |}) /\
  _gtk_shadow_unref None m =
    Some (tt, {| shadows := shadows m; slices := slices m;
                 trace := trace m ++
                   [g_return_if_fail_warning "_gtk_shadow_unref"
                                             "shadow != NULL"] |}) /\
  _gtk_shadow_get_resolved None m = None /\
  _gtk_shadow_resolve resolver None props m = None /\
  _gtk_shadow_to_string to_text rgba_text None m = None /\
  _gtk_text_shadow_paint_layout None cr layout m = None.
Proof. repeat split. Qed.

(** ** Stores a client can reach *)

Section ReachableMore.

Variable gtk_symbolic_color_resolve : ptr -> ptr -> option GdkRGBA.
Variable gtk_symbolic_color_to_string : addr -> string.
Variable gdk_rgba_to_string : GdkRGBA -> string.

Local Abbreviation reachable_store :=
  (reachable gtk_symbolic_color_resolve gtk_symbolic_color_to_string
             gdk_rgba_to_string).

Lemma _gtk_shadow_unref_returns (m : memory) a s es :
  shadows m !! a = Some s ->
  NoDup (elements s) -> loaded (slices m) (elements s) es ->
  is_Some (_gtk_shadow_unref (Some a) m).
Proof.
  intros Hs Hnd Hl.
  destruct (Z.eq_dec (guint_wrap (ref_count s - 1)) 0) as [Hz | Hnz].
  - erewrite _gtk_shadow_unref_last by done. eauto.
  - erewrite _gtk_shadow_unref_keep by done. eauto.
Qed.

Lemma _gtk_shadow_resolve_returns (m : memory) a s es props :
  shadows m !! a = Some s ->
  loaded (slices m) (elements s) es ->
  is_Some (_gtk_shadow_resolve gtk_symbolic_color_resolve (Some a) props m).
Proof.
  intros Hs Hl. destruct (resolved s) eqn:Hr.
  - erewrite _gtk_shadow_resolve_resolved_eq by done. eauto.
  - destruct (all_resolve_or_fail gtk_symbolic_color_resolve props es)
      as [[cs Hcs] | Hex].
    + erewrite _gtk_shadow_resolve_ok_eq by done. eauto.
    + destruct (first_failure _ _ es Hex)
        as (pre & e & post & cs & -> & Hpre & He).
      erewrite _gtk_shadow_resolve_fail_eq by done. eauto.
Qed.

Lemma _gtk_shadow_to_string_returns (m : memory) a s es :
  shadows m !! a = Some s ->
  loaded (slices m) (elements s) es ->
  is_Some (_gtk_shadow_to_string gtk_symbolic_color_to_string
             gdk_rgba_to_string (Some a) m).
Proof.
  intros Hs Hl. unfold _gtk_shadow_to_string.
  erewrite bind_Some by (unfold load_shadow; by rewrite Hs).
  destruct Hl as [|data e next es' He Hl]; [simpl; eauto |].
  destruct (_ =? 0); [unfold ret; eauto |].
  erewrite bind_Some by (unfold load_element; by rewrite He).
  destruct (_ =? 1); [unfold ret; eauto |].
  erewrite bind_Some by (by apply to_string_loop_eq).
  unfold ret. eauto.
Qed.

(** X15. Ownership in the stores a client can reach (append on unresolved
    lists only): every node of every list points to a live element, no
    element occurs twice in a list, and no element belongs to two lists. *)
Theorem reachable_ownership (m : memory) a s :
  reachable_store m ->
  shadows m !! a = Some s ->
  NoDup (elements s) /\
  (forall x, x ∈ elements s -> is_Some (slices m !! x)) /\
  (forall b t x, a <> b -> shadows m !! b = Some t ->
                 x ∈ elements s -> x ∉ elements t).
Proof.
  intros Hreach Hs.
  pose proof (reachable_inv _ _ _ m Hreach) as [Hel Hnd Hdj].
  split; [eauto |]. split.
  - intros x Hx. destruct (Hel a s Hs) as (es & Hl & _).
    by eapply loaded_live.
  - intros b t x Hab Ht Hx. by eapply (Hdj a b).
Qed.

(** X16. No call gets stuck on a live list of a reachable store: ref,
    unref, get_resolved, append, resolve, to_string and paint_layout all
    return, so none of them reads or frees through a dangling pointer. *)
Theorem reachable_calls_return (m : memory) a s h v r sp i color props cr layout :
  reachable_store m ->
  shadows m !! a = Some s ->
  is_Some (_gtk_shadow_ref (Some a) m) /\
  is_Some (_gtk_shadow_unref (Some a) m) /\
  is_Some (_gtk_shadow_get_resolved (Some a) m) /\
  is_Some (_gtk_shadow_append (Some a) h v r sp i color m) /\
  is_Some (_gtk_shadow_resolve gtk_symbolic_color_resolve (Some a) props m) /\
  is_Some (_gtk_shadow_to_string gtk_symbolic_color_to_string
             gdk_rgba_to_string (Some a) m) /\
  is_Some (_gtk_text_shadow_paint_layout (Some a) cr layout m).
Proof.
  intros Hreach Hs.
  pose proof (reachable_inv _ _ _ m Hreach) as [Hel Hnd Hdj].
  destruct (Hel a s Hs) as (es & Hl & _).
  split; [erewrite _gtk_shadow_ref_eq by done; eauto |].
  split; [eapply _gtk_shadow_unref_returns; eauto |].
  split; [erewrite _gtk_shadow_get_resolved_eq by done; eauto |].
  split.
  { destruct color as [c|]; [| simpl; eauto].
    erewrite _gtk_shadow_append_eq by done. eauto. }
  split; [by eapply _gtk_shadow_resolve_returns |].
  split; [by eapply _gtk_shadow_to_string_returns |].
  destruct (_gtk_text_shadow_paint_layout_eq m a s es cr layout Hs Hl)
    as (cr' & -> & _). eauto.
Qed.

(** X17. Releasing one list never touches another: in a reachable store,
    an unref of one list, the last one included, leaves every other list
    and the contents of its elements as they were. *)
Theorem unref_leaves_other_lists (m : memory) a b s t et :
  reachable_store m ->
  a <> b ->
  shadows m !! a = Some s ->
  shadows m !! b = Some t ->
  loaded (slices m) (elements t) et ->
  exists m',
    _gtk_shadow_unref (Some a) m = Some (tt, m') /\
    shadows m' !! b = Some t /\
    loaded (slices m') (elements t) et.
Proof.
  intros Hreach Hab Hs Ht Hlt.
  pose proof (reachable_inv _ _ _ m Hreach) as [Hel Hnd Hdj].
  destruct (Hel a s Hs) as (es & Hl & _).
  destruct (Z.eq_dec (guint_wrap (ref_count s - 1)) 0) as [Hz | Hnz].
  - eexists. split; [eapply _gtk_shadow_unref_last; eauto |]. simpl.
    split; [by rewrite lookup_delete_ne |].
    apply loaded_foldr_delete; [| done]. intros x Hx.
    apply (Hdj b a t s x); [congruence | done | done | done].
  - eexists. split; [by eapply _gtk_shadow_unref_keep |]. simpl.
    split; [by rewrite lookup_insert_ne | done].
Qed.

(** X18. Append and resolution leave the other lists alone: whatever they
    do to or for the list they are given, every other live list with live
    elements keeps its record and its elements' contents. *)
Theorem append_resolve_leave_other_lists (m : memory) a b s es t et
    h v r sp i color props :
  a <> b ->
  shadows m !! a = Some s ->
  loaded (slices m) (elements s) es ->
  shadows m !! b = Some t ->
  loaded (slices m) (elements t) et ->
  (exists m',
     _gtk_shadow_append (Some a) h v r sp i color m = Some (tt, m') /\
     shadows m' !! b = Some t /\ loaded (slices m') (elements t) et) /\
  (exists res m',
     _gtk_shadow_resolve gtk_symbolic_color_resolve (Some a) props m
       = Some (res, m') /\
     shadows m' !! b = Some t /\ loaded (slices m') (elements t) et).
Proof.
  intros Hab Hs Hl Ht Hlt. split.
  - destruct color as [c|].
    + eexists. split; [by apply _gtk_shadow_append_eq |]. simpl.
      split; [by rewrite lookup_insert_ne |].
      apply loaded_insert_fresh; [apply fresh_slice | done].
    + eexists. split; [reflexivity | done].
  - destruct (resolved s) eqn:Hr.
    + eexists _, _. split; [by apply _gtk_shadow_resolve_resolved_eq |].
      simpl. split; [by rewrite lookup_insert_ne | done].
    + destruct (all_resolve_or_fail gtk_symbolic_color_resolve props es)
        as [[cs Hcs] | Hex].
      * eexists _, _. split; [by eapply _gtk_shadow_resolve_ok_eq |].
        simpl. split; [| by apply alloc_all_loaded_old].
        rewrite lookup_insert_ne; [done |].
        intros Heq. rewrite <- Heq, fresh_slice in Ht. done.
      * destruct (first_failure _ _ es Hex)
          as (pre & e & post & cs & -> & Hpre & He).
        eexists _, _. split; [by eapply _gtk_shadow_resolve_fail_eq |].
        done.
Qed.

End ReachableMore.

(** ** The calls of the painter, read as a whole *)

Lemma net_dx_paint layout es :
  (net_dx (flat_map (paint_calls layout) es) == 0)%Q.
Proof.
  induction es as [|e es IH]; simpl; [reflexivity |].
  rewrite IH, inject_Z_opp. ring.
Qed.

Lemma net_dy_paint layout es :
  (net_dy (flat_map (paint_calls layout) es) == 0)%Q.
Proof.
  induction es as [|e es IH]; simpl; [reflexivity |].
  rewrite IH, inject_Z_opp. ring.
Qed.

Lemma save_depth_paint layout es d :
  save_depth (flat_map (paint_calls layout) es) d = Some d.
Proof. induction es as [|e es IH]; simpl; [done | exact IH]. Qed.

(** X19. The painter leaves the context where it found it: the calls it
    adds after the optional move to (0, 0) restore every state they save,
    never restore one they did not save, and their relative moves add up to
    no move at all, in each direction. *)
Theorem paint_is_balanced (m : memory) a s es cr layout :
  shadows m !! a = Some s ->
  loaded (slices m) (elements s) es ->
  exists cr' added,
    _gtk_text_shadow_paint_layout (Some a) cr layout m = Some (cr', m) /\
    cairo_calls cr' =
      cairo_calls cr ++
      (if cairo_has_current_point cr then []
       else [cairo_move_to_call 0%Q 0%Q]) ++ added /\
    (forall d, save_depth added d = Some d) /\
    (net_dx added == 0)%Q /\ (net_dy added == 0)%Q.
Proof.
  intros Hs Hl.
  destruct (_gtk_text_shadow_paint_layout_eq m a s es cr layout Hs Hl)
    as (cr' & Hp & Hc).
  exists cr', (flat_map (paint_calls layout) (rev es)).
  split; [done |]. split; [done |].
  split; [intros d; apply save_depth_paint |].
  split; [apply net_dx_paint | apply net_dy_paint].
Qed.

(** ** The further properties, at the example *)

Lemma ref_then_unref_witness :
  exists m1,
    _gtk_shadow_ref (Some 1%positive) example_memory
      = Some (Some 1%positive, m1) /\
    _gtk_shadow_unref (Some 1%positive) m1 = Some (tt, example_memory).
Proof.
  apply (ref_then_unref example_memory 1%positive example_list).
  - lookup_now.
  - simpl. lia.
Defined.

Lemma append_then_to_string_witness :
  exists old m' x e,
    _gtk_shadow_to_string example_symbolic_text example_rgba_text
        (Some 1%positive) example_memory = Some (old, example_memory) /\
    _gtk_shadow_append (Some 1%positive) 0%Q 1%Q 4%Q 0%Q false
        (Some 3%positive) example_memory = Some (tt, m') /\
    shadows m' !! 1%positive =
      Some {| elements := elements example_list ++ [x];
              ref_count := ref_count example_list;
              resolved := resolved example_list |} /\
    slices m' !! x = Some e /\
    stores_integer_parts 0%Q 1%Q 4%Q 0%Q e /\
    inset e = false /\
    symbolic_color e = Some 3%positive /\
    _gtk_shadow_to_string example_symbolic_text example_rgba_text
        (Some 1%positive) m' =
      Some (Some (match old with
                  | None =>
                      shadow_element_to_string example_symbolic_text
                        example_rgba_text e
                  | Some text =>
                      text +:+ ", " +:+
                      shadow_element_to_string example_symbolic_text
                        example_rgba_text e
                  end), m').
Proof.
  apply (append_then_to_string example_symbolic_text example_rgba_text
           example_memory 1%positive example_list
           [example_first; example_second]).
  - lookup_now.
  - loaded_now.
  - simpl. lia.
Defined.

Lemma resolve_then_to_string_witness :
  exists q m',
    _gtk_shadow_resolve example_resolver (Some 1%positive) None example_memory
      = Some (Some q, m') /\
    _gtk_shadow_to_string example_symbolic_text example_rgba_text (Some q) m' =
      Some (Some (String.concat ", "
                    (map (shadow_element_to_string example_symbolic_text
                                                   example_rgba_text)
                         (zip_with concrete_copy
                            [example_first; example_second]
                            [example_red; example_grey]))), m').
Proof.
  apply (resolve_then_to_string example_resolver example_symbolic_text
           example_rgba_text example_memory 1%positive example_list
           [example_first; example_second] [example_red; example_grey] None).
  - lookup_now.
  - reflexivity.
  - loaded_now.
  - repeat constructor; vm_compute; discriminate.
  - repeat constructor.
  - simpl. lia.
Defined.

Lemma to_string_never_empty_witness :
  (2 <= String.length "2 2 @fg, inset -1 3 -3 5 @bg")%nat.
Proof.
  apply (to_string_never_empty example_symbolic_text example_rgba_text
           example_memory (Some 1%positive) _ example_memory).
  vm_compute. reflexivity.
Defined.

Lemma resolve_empty_witness :
  exists q,
    shadows example_new_memory !! q = None /\
    _gtk_shadow_resolve example_resolver (Some 1%positive) None
        example_new_memory =
      Some (Some q,
            {| shadows := <[q := {| elements := []; ref_count := 1;
                                    resolved := true |}]>
                            (shadows example_new_memory);
               slices := slices example_new_memory;
               trace := trace example_new_memory |}).
Proof.
  apply (resolve_empty example_resolver None example_new_memory 1%positive
           {| elements := []; ref_count := 1; resolved := false |}).
  - lookup_now.
  - reflexivity.
  - reflexivity.
Defined.

Lemma resolve_outside_calls_witness :
  exists r m' called rest,
    _gtk_shadow_resolve example_resolver (Some 1%positive) None
        example_failing_memory = Some (r, m') /\
    [example_first; example_second; example_unknown] = called ++ rest /\
    trace m' = trace example_failing_memory ++ resolve_events None called /\
    (r <> None -> rest = []).
Proof.
  apply (resolve_outside_calls example_resolver None example_failing_memory
           1%positive example_failing_list).
  - lookup_now.
  - reflexivity.
  - loaded_now.
Defined.

Lemma resolve_then_unref_witness :
  exists q m',
    _gtk_shadow_resolve example_resolver (Some 1%positive) None example_memory
      = Some (Some q, m') /\
    _gtk_shadow_unref (Some q) m' =
      Some (tt, {| shadows := shadows example_memory;
                   slices := slices example_memory;
                   trace := trace example_memory ++
                            resolve_events None
                              [example_first; example_second] |}).
Proof.
  apply (resolve_then_unref example_resolver None example_memory 1%positive
           example_list [example_first; example_second]
           [example_red; example_grey]).
  - lookup_now.
  - reflexivity.
  - loaded_now.
  - repeat constructor.
Defined.

Lemma resolve_twice_witness :
  exists q new m1 m2,
    _gtk_shadow_resolve example_resolver (Some 1%positive) None example_memory
      = Some (Some q, m1) /\
    shadows m1 !! q =
      Some {| elements := new; ref_count := 1; resolved := true |} /\
    _gtk_shadow_resolve example_resolver (Some q) None m1
      = Some (Some q, m2) /\
    shadows m2 !! q =
      Some {| elements := new; ref_count := 2; resolved := true |} /\
    slices m2 = slices m1 /\ trace m2 = trace m1.
Proof.
  apply (resolve_twice example_resolver None example_memory 1%positive
           example_list [example_first; example_second]
           [example_red; example_grey]).
  - lookup_now.
  - reflexivity.
  - loaded_now.
  - repeat constructor.
Defined.

Lemma get_resolved_around_resolve_witness :
  exists q m',
    _gtk_shadow_get_resolved (Some 1%positive) example_memory
      = Some (false, example_memory) /\
    _gtk_shadow_resolve example_resolver (Some 1%positive) None example_memory
      = Some (Some q, m') /\
    _gtk_shadow_get_resolved (Some 1%positive) m' = Some (false, m') /\
    _gtk_shadow_get_resolved (Some q) m' = Some (true, m').
Proof.
  apply (get_resolved_around_resolve example_resolver None example_memory
           1%positive example_list [example_first; example_second]
           [example_red; example_grey]).
  - lookup_now.
  - reflexivity.
  - loaded_now.
  - repeat constructor.
Defined.

Lemma resolve_then_paint_witness :
  exists q m' cr',
    _gtk_shadow_resolve example_resolver (Some 1%positive) None example_memory
      = Some (Some q, m') /\
    _gtk_text_shadow_paint_layout (Some q) example_context None m'
      = Some (cr', m') /\
    cairo_calls cr' =
      cairo_calls example_context ++
      (if cairo_has_current_point example_context then []
       else [cairo_move_to_call 0%Q 0%Q]) ++
      flat_map (paint_calls None)
        (rev (zip_with concrete_copy [example_first; example_second]
                       [example_red; example_grey])).
Proof.
  apply (resolve_then_paint example_resolver None example_memory 1%positive
           example_list [example_first; example_second]
           [example_red; example_grey]).
  - lookup_now.
  - reflexivity.
  - loaded_now.
  - repeat constructor; vm_compute; discriminate.
  - repeat constructor.
Defined.

Lemma paint_ignores_radius_spread_inset_witness :
  exists cr',
    _gtk_text_shadow_paint_layout (Some 1%positive) example_context None
        example_paint_memory = Some (cr', example_paint_memory) /\
    _gtk_text_shadow_paint_layout (Some 2%positive) example_context None
        example_paint_memory = Some (cr', example_paint_memory).
Proof.
  apply (paint_ignores_radius_spread_inset example_paint_memory
           1%positive 2%positive
           {| elements := [1%positive]; ref_count := 1; resolved := true |}
           {| elements := [2%positive]; ref_count := 1; resolved := true |}
           [concrete_copy example_first example_red]
           [{| hoffset := 2; voffset := 2; radius := 7; spread := 1;
               inset := true; color := example_red;
               symbolic_color := None |}]).
  - lookup_now.
  - lookup_now.
  - loaded_now.
  - loaded_now.
  - repeat constructor.
Defined.

Lemma append_is_not_gated_witness :
  exists x e m' m'',
    _gtk_shadow_append (Some 1%positive) 1%Q 1%Q 0%Q 0%Q false
        (Some 2%positive) example_resolved_memory = Some (tt, m') /\
    shadows m' !! 1%positive =
      Some {| elements := elements example_resolved_list ++ [x];
              ref_count := ref_count example_resolved_list;
              resolved := true |} /\
    slices m' !! x = Some e /\ symbolic e /\
    _gtk_shadow_resolve example_resolver (Some 1%positive) None m'
      = Some (Some 1%positive, m'') /\
    trace m'' = trace m'.
Proof.
  apply (append_is_not_gated example_resolver None example_resolved_memory
           1%positive example_resolved_list).
  - lookup_now.
  - reflexivity.
Defined.

Lemma reachable_ownership_witness :
  NoDup [1%positive] /\
  (forall x, x ∈ [1%positive] -> is_Some (slices example_built_memory !! x)) /\
  (forall b t x, 1%positive <> b ->
     shadows example_built_memory !! b = Some t ->
     x ∈ [1%positive] -> x ∉ elements t).
Proof.
  apply (reachable_ownership example_resolver example_symbolic_text
           example_rgba_text example_built_memory 1%positive
           {| elements := [1%positive]; ref_count := 1; resolved := false |}).
  - exact example_built_reachable.
  - lookup_now.
Defined.

Lemma reachable_calls_return_witness :
  is_Some (_gtk_shadow_ref (Some 1%positive) example_built_memory) /\
  is_Some (_gtk_shadow_unref (Some 1%positive) example_built_memory) /\
  is_Some (_gtk_shadow_get_resolved (Some 1%positive) example_built_memory) /\
  is_Some (_gtk_shadow_append (Some 1%positive) 1%Q 1%Q 0%Q 0%Q false
             (Some 2%positive) example_built_memory) /\
  is_Some (_gtk_shadow_resolve example_resolver (Some 1%positive) None
             example_built_memory) /\
  is_Some (_gtk_shadow_to_string example_symbolic_text example_rgba_text
             (Some 1%positive) example_built_memory) /\
  is_Some (_gtk_text_shadow_paint_layout (Some 1%positive) example_context
             None example_built_memory).
Proof.
  apply (reachable_calls_return example_resolver example_symbolic_text
           example_rgba_text example_built_memory 1%positive
           {| elements := [1%positive]; ref_count := 1; resolved := false |}).
  - exact example_built_reachable.
  - lookup_now.
Defined.

Lemma unref_leaves_other_lists_witness :
  exists m',
    _gtk_shadow_unref (Some 1%positive) example_built_memory = Some (tt, m') /\
    shadows m' !! 2%positive =
      Some {| elements := [2%positive]; ref_count := 1; resolved := true |} /\
    loaded (slices m') [2%positive]
           [concrete_copy example_first example_red].
Proof.
  apply (unref_leaves_other_lists example_resolver example_symbolic_text
           example_rgba_text example_built_memory 1%positive 2%positive
           {| elements := [1%positive]; ref_count := 1; resolved := false |}
           {| elements := [2%positive]; ref_count := 1; resolved := true |}).
  - exact example_built_reachable.
  - discriminate.
  - lookup_now.
  - lookup_now.
  - loaded_now.
Defined.

Lemma append_resolve_leave_other_lists_witness :
  (exists m',
     _gtk_shadow_append (Some 1%positive) 1%Q 1%Q 0%Q 0%Q false
         (Some 2%positive) example_built_memory = Some (tt, m') /\
     shadows m' !! 2%positive =
       Some {| elements := [2%positive]; ref_count := 1; resolved := true |} /\
     loaded (slices m') [2%positive]
            [concrete_copy example_first example_red]) /\
  (exists res m',
     _gtk_shadow_resolve example_resolver (Some 1%positive) None
         example_built_memory = Some (res, m') /\
     shadows m' !! 2%positive =
       Some {| elements := [2%positive]; ref_count := 1; resolved := true |} /\
     loaded (slices m') [2%positive]
            [concrete_copy example_first example_red]).
Proof.
  apply (append_resolve_leave_other_lists example_resolver
           example_built_memory 1%positive 2%positive
           {| elements := [1%positive]; ref_count := 1; resolved := false |}
           [example_first]
           {| elements := [2%positive]; ref_count := 1; resolved := true |}).
  - discriminate.
  - lookup_now.
  - loaded_now.
  - lookup_now.
  - loaded_now.
Defined.

Lemma paint_is_balanced_witness :
  exists cr' added,
    _gtk_text_shadow_paint_layout (Some 1%positive) example_context None
        example_resolved_memory = Some (cr', example_resolved_memory) /\
    cairo_calls cr' =
      cairo_calls example_context ++
      (if cairo_has_current_point example_context then []
       else [cairo_move_to_call 0%Q 0%Q]) ++ added /\
    (forall d, save_depth added d = Some d) /\
    (net_dx added == 0)%Q /\ (net_dy added == 0)%Q.
Proof.
  apply (paint_is_balanced example_resolved_memory 1%positive
           example_resolved_list
           [concrete_copy example_first example_red;
            concrete_copy example_second example_grey]).
  - lookup_now.
  - loaded_now.
Defined.

Example example_build_and_print :
  exists q m1 m2,
    _gtk_shadow_new empty_memory = Some (q, m1) /\
    append_layers (Some q) example_layers m1 = Some (tt, m2) /\
    _gtk_shadow_to_string example_symbolic_text example_rgba_text (Some q) m2
      = Some (Some "2 2 @fg, inset -1 3 -3 5 @bg", m2).
Proof. eexists _, _, _. repeat split; vm_compute; reflexivity. Qed.
